(** * Snippet-marker analysis scripts: tokenizer, nesting validator and
      substring detector.

    Shallow embedding of [parseTagEvents] / [findNestedTags] (the nested-tag
    script) and of [findSubstringTags] (the duplicate-start-tag script).

    JavaScript strings are sequences of UTF-16 code units; they are modelled
    as [list N].  The regular expressions of the scripts have no [u] flag, so
    they work code unit by code unit as well. *)

From Stdlib Require Import String Ascii.
From Stdlib Require Import List NArith Arith Bool Lia.
From Stdlib Require Import Sorting.Sorted.
Import ListNotations.

Set Implicit Arguments.

(** ** JavaScript strings *)

Module JS.

Definition jsstring := list N.

(** ASCII literal of the source text as a sequence of code units. *)
Definition lit (s : string) : jsstring :=
  map N_of_ascii (list_ascii_of_string s).

Definition eqb (a b : jsstring) : bool :=
  if list_eq_dec N.eq_dec a b then true else false.

(** The code units matched by [\s] and stripped by [trim]: WhiteSpace and
    LineTerminator of ECMAScript. *)
Definition isWhiteSpace (c : N) : bool :=
  ((9 <=? c) && (c <=? 13)          (* TAB LF VT FF CR *)
   || (c =? 32)                     (* SP *)
   || (c =? 160)                    (* NBSP *)
   || (c =? 5760)                   (* U+1680 *)
   || (8192 <=? c) && (c <=? 8202)  (* U+2000 .. U+200A *)
   || (c =? 8232) || (c =? 8233)    (* LS PS *)
   || (c =? 8239) || (c =? 8287)    (* U+202F U+205F *)
   || (c =? 12288)                  (* U+3000 *)
   || (c =? 65279))%N.              (* U+FEFF *)

Definition rbracket : N := 93.      (* ] *)
Definition newline : N := 10.

(** [[^\]]] *)
Definition notRBracket (c : N) : bool := negb (c =? rbracket)%N.

Fixpoint trimStart (s : jsstring) : jsstring :=
  match s with
  | c :: s' => if isWhiteSpace c then trimStart s' else s
  | [] => []
  end.

Definition trimEnd (s : jsstring) : jsstring := rev (trimStart (rev s)).

(** [String.prototype.trim] *)
Definition trim (s : jsstring) : jsstring := trimEnd (trimStart s).

(** [s.split(sep)] for a one-unit separator: never the empty list. *)
Fixpoint split (sep : N) (s : jsstring) : list jsstring :=
  match s with
  | [] => [[]]
  | c :: s' =>
      if (c =? sep)%N then [] :: split sep s'
      else match split sep s' with
           | l :: ls => (c :: l) :: ls
           | [] => [[c]]
           end
  end.

Fixpoint startsWith (s p : jsstring) {struct p} : bool :=
  match p, s with
  | [], _ => true
  | a :: p', b :: s' => (a =? b)%N && startsWith s' p'
  | _ :: _, [] => false
  end.

(** [s.includes(p)] *)
Fixpoint includes (s p : jsstring) : bool :=
  startsWith s p ||
  match s with
  | [] => false
  | _ :: s' => includes s' p
  end.

(** Default comparison of [Array.prototype.sort] on strings: code-unit
    lexicographic order.  [leb a b] is [a <= b]. *)
Fixpoint leb (a b : jsstring) : bool :=
  match a, b with
  | [], _ => true
  | _ :: _, [] => false
  | x :: a', y :: b' =>
      if (x <? y)%N then true
      else if (y <? x)%N then false
      else leb a' b'
  end.

Fixpoint insert (x : jsstring) (l : list jsstring) : list jsstring :=
  match l with
  | [] => [x]
  | y :: l' => if leb x y then x :: l else y :: insert x l'
  end.

(** [arr.sort()] (stable; modelled by insertion sort). *)
Definition sort (l : list jsstring) : list jsstring :=
  fold_right insert [] l.

(** [[...new Set(arr)]]: first occurrences, in insertion order. *)
Definition setOf (l : list jsstring) : list jsstring :=
  fold_left (fun acc t => if existsb (eqb t) acc then acc else acc ++ [t])
            l [].

End JS.

Import JS.

(** ** Backtracking matcher for the two marker patterns *)

Module Regex.

(** A matcher takes the rest of the input and answers with the result of
    its continuation, or [None] when every alternative has failed. *)
Definition cont (A : Type) := jsstring -> option A.

(** A literal run of code units. *)
Definition mLit {A} (l : jsstring) (k : cont A) : cont A :=
  fun s => if startsWith s l then k (skipn (length l) s) else None.

(** Greedy [c+] for a class [p]: one unit is required; more iterations are
    tried first, the continuation is tried when they fail.  [acc] is what
    this quantifier has consumed so far. *)
Fixpoint mPlus {A} (p : N -> bool) (k : jsstring -> cont A)
         (acc : jsstring) (s : jsstring) : option A :=
  match s with
  | c :: s' =>
      if p c then
        match mPlus p k (acc ++ [c]) s' with
        | Some r => Some r
        | None => k (acc ++ [c]) s'
        end
      else None
  | [] => None
  end.

(** [/\[KW\s+([^\]]+)\]/] anchored at the head of [s]: capture group 1 and
    the input left after the match. *)
Definition marker (kw : jsstring) : cont (jsstring * jsstring) :=
  mLit (lit "[" ++ kw)
    (mPlus isWhiteSpace
       (fun _ => mPlus notRBracket
                   (fun cap => mLit (lit "]") (fun rest => Some (cap, rest)))
                   [])
       []).

(** [while ((match = re.exec(line)) !== null)] with the [g] flag: the
    leftmost match at or after [lastIndex], then [lastIndex] moves to the
    end of that match.  [idx] is the index of the head of [s] in the line
    and [skip] the number of code units of the previous match still to be
    passed.  Each answer is [(match.index, match[1])]. *)
Fixpoint execAll (re : cont (jsstring * jsstring)) (skip idx : nat)
         (s : jsstring) : list (nat * jsstring) :=
  match s with
  | [] => []
  | _ :: s' =>
      match skip with
      | S n => execAll re n (S idx) s'
      | O =>
          match re s with
          | Some (cap, rest) =>
              (idx, cap)
                :: execAll re (length s - length rest - 1) (S idx) s'
          | None => execAll re 0 (S idx) s'
          end
      end
  end.

End Regex.

(** ** The tokenizer: [parseTagEvents] *)

Inductive kind := START | END.

Definition path : Type := string.
Bind Scope string_scope with path.

Record event := mkEvent {
  type : kind;
  tag : jsstring;
  line : nat;
  file : path
}.

Definition startRegex := Regex.marker (lit "START").
Definition endRegex := Regex.marker (lit "END").

(** Body of [lines.forEach((line, index) => ...)]: the START loop runs to
    completion before the END loop starts. *)
Definition lineEvents (filePath : path) (index : nat) (ln : jsstring)
  : list event :=
  let lineNum := index + 1 in
  map (fun m => mkEvent START (trim (snd m)) lineNum filePath)
      (Regex.execAll startRegex 0 0 ln)
  ++
  map (fun m => mkEvent END (trim (snd m)) lineNum filePath)
      (Regex.execAll endRegex 0 0 ln).

Fixpoint eventsFrom (filePath : path) (index : nat) (lines : list jsstring)
  : list event :=
  match lines with
  | [] => []
  | ln :: rest =>
      lineEvents filePath index ln ++ eventsFrom filePath (S index) rest
  end.

(** The [try] block of [parseTagEvents] once the content is read. *)
Definition tokenize (filePath : path) (content : jsstring) : list event :=
  eventsFrom filePath 0 (split newline content).

(** The file system: [None] when [fs.readFileSync] throws. *)
Definition filesystem := path -> option jsstring.

Definition parseTagEvents (fs : filesystem) (filePath : path) : list event :=
  match fs filePath with
  | Some content => tokenize filePath content
  | None => []                         (* catch (err) { return []; } *)
  end.

(** ** The nesting validator: [findNestedTags] *)

Record nestedPair := mkPair {
  outer : event;
  inner : event;
  depth : nat
}.

Inductive error :=
| UNMATCHED_END (tag : jsstring) (line : nat)
| MISMATCHED_END (expected got : jsstring) (startLine endLine : nat)
| UNCLOSED_START (tag : jsstring) (line : nat).

(** The three arrays of [findNestedTags].  [stack] is in array order: the
    bottom frame first, the top frame last. *)
Record vstate := mkState {
  stack : list event;
  nestedPairs : list nestedPair;
  errors : list error
}.

Definition initial : vstate := mkState [] [] [].

(** [stack[stack.length - 1]], [None] when [stack.length === 0]. *)
Definition top (s : list event) : option event :=
  nth_error s (length s - 1).

(** Body of [events.forEach(event => ...)]. *)
Definition onEvent (st : vstate) (ev : event) : vstate :=
  match type ev with
  | START =>
      let nestedPairs' :=
        match top (stack st) with
        | Some o =>
            nestedPairs st ++ [mkPair o ev (length (stack st) + 1)]
        | None => nestedPairs st
        end in
      mkState (stack st ++ [ev]) nestedPairs' (errors st)
  | END =>
      match top (stack st) with
      | None =>
          mkState (stack st) (nestedPairs st)
                  (errors st ++ [UNMATCHED_END (tag ev) (line ev)])
      | Some t =>
          let errors' :=
            if JS.eqb (tag t) (tag ev) then errors st
            else errors st
                   ++ [MISMATCHED_END (tag t) (tag ev) (line t) (line ev)] in
          mkState (removelast (stack st)) (nestedPairs st) errors'
      end
  end.

Definition processEvents (st : vstate) (events : list event) : vstate :=
  fold_left onEvent events st.

(** [stack.forEach(unclosed => errors.push(...))] *)
Definition unclosed (s : list event) : list error :=
  map (fun u => UNCLOSED_START (tag u) (line u)) s.

Record report := mkReport {
  r_file : path;
  r_nestedPairs : list nestedPair;
  r_errors : list error;
  totalTags : nat
}.

(** What [findNestedTags] does with the events of a file. *)
Definition analyze (filePath : path) (events : list event) : option report :=
  if length events =? 0 then None
  else
    let st := processEvents initial events in
    Some (mkReport filePath (nestedPairs st)
                   (errors st ++ unclosed (stack st))
                   (length events)).

Definition findNestedTags (fs : filesystem) (filePath : path)
  : option report :=
  analyze filePath (parseTagEvents fs filePath).

(** ** The accumulation loop of [main] *)

Section Scan.

Variable fs : filesystem.
(** [path.relative(rootDir, file)] *)
Variable relative : path -> path.

Record totals := mkTotals {
  allNested : list (nestedPair * path);
  allErrors : list (error * path);
  filesWithTags : nat
}.

(** Body of [allFiles.forEach(file => ...)]. *)
Definition scanFile (acc : totals) (f : path) : totals :=
  match findNestedTags fs f with
  | Some result =>
      if 0 <? totalTags result then
        mkTotals
          (allNested acc
             ++ map (fun p => (p, relative f)) (r_nestedPairs result))
          (allErrors acc
             ++ map (fun e => (e, relative f)) (r_errors result))
          (S (filesWithTags acc))
      else acc
  | None => acc
  end.

Definition scan (allFiles : list path) : totals :=
  fold_left scanFile allFiles (mkTotals [] [] 0).

End Scan.

(** ** The substring detector: [findSubstringTags] *)

Record tagEntry := mkTag {
  t_tag : jsstring;
  t_file : path;
  fullMatch : jsstring
}.

Record substringPair := mkSub {
  substring : jsstring;
  superstring : jsstring
}.

(** The double [for] loop over the indices of [uniqueTags]. *)
Definition pairsOf (uniqueTags : list jsstring) : list substringPair :=
  let n := length uniqueTags in
  flat_map (fun i =>
    flat_map (fun j =>
      if negb (i =? j) then
        let shorter := nth i uniqueTags [] in
        let longer := nth j uniqueTags [] in
        if includes longer shorter && negb (JS.eqb shorter longer)
        then [mkSub shorter longer]
        else []
      else [])
      (seq 0 n))
    (seq 0 n).

Definition findSubstringTags (allTags : list tagEntry) : list substringPair :=
  let uniqueTags := sort (setOf (map t_tag allTags)) in
  pairsOf uniqueTags.

(** ** Vocabulary of the properties *)

(** The errors pushed by one step, i.e. what [errors] gained. *)
Definition emitted (st : vstate) (ev : event) : list error :=
  skipn (length (errors st)) (errors (onEvent st ev)).

(** The pairs pushed by one step. *)
Definition emittedPairs (st : vstate) (ev : event) : list nestedPair :=
  skipn (length (nestedPairs st)) (nestedPairs (onEvent st ev)).

(** The tag is on no frame of the stack (so also when the stack is
    empty). *)
Definition tagAbsent (s : list event) (tg : jsstring) : Prop :=
  forall fr, In fr s -> tag fr <> tg.

(** [l] is [m] with some elements left out, the order kept. *)
Inductive subseq {A : Type} : list A -> list A -> Prop :=
| subseq_nil : subseq [] []
| subseq_skip x l m : subseq l m -> subseq l (x :: m)
| subseq_take x l m : subseq l m -> subseq (x :: l) (x :: m).

Definition isUnclosed (e : error) : bool :=
  match e with UNCLOSED_START _ _ => true | _ => false end.

Definition isStart (ev : event) : bool :=
  match type ev with START => true | END => false end.

(** Start events among [events]. *)
Definition startsIn (events : list event) : nat :=
  length (filter isStart events).

(** Regions open after [events] when, as in the validator, an End closes the
    innermost open region whatever its tag. *)
Definition openAfter (events : list event) : nat :=
  fold_left (fun n ev => match type ev with START => S n | END => pred n end)
            events 0.

(** The other reading of "closed": an End closes the innermost open region
    of its own tag and no region when there is none.  Innermost first. *)
Fixpoint closeNearest (tg : jsstring) (opened : list event) : list event :=
  match opened with
  | [] => []
  | fr :: rest =>
      if JS.eqb (tag fr) tg then rest else fr :: closeNearest tg rest
  end.

Definition openByTag (events : list event) : list event :=
  fold_left (fun o ev => match type ev with
                         | START => ev :: o
                         | END => closeNearest (tag ev) o
                         end)
            events [].

(** Properly nested: every Start is closed by a later End of the same tag,
    the region opened last being closed first. *)
Inductive nested : list event -> Prop :=
| nested_nil : nested []
| nested_region s e body :
    type s = START -> type e = END -> tag s = tag e ->
    nested body -> nested (s :: body ++ [e])
| nested_app l1 l2 : nested l1 -> nested l2 -> nested (l1 ++ l2).

Definition allWhiteSpace (s : jsstring) : Prop :=
  Forall (fun c => isWhiteSpace c = true) s.

Definition lbracket : N := 91.        (* [ *)

(** The keyword of the pattern that produces events of kind [k]. *)
Definition keyword (k : kind) : jsstring :=
  match k with START => lit "START" | END => lit "END" end.

(** What the body of the double loop pushes for two tags. *)
Definition candidate (shorter longer : jsstring) : list substringPair :=
  if includes longer shorter && negb (JS.eqb shorter longer)
  then [mkSub shorter longer]
  else [].

(** [a <= b] in the order of [sort]. *)
Definition lePair (a b : jsstring) : Prop := JS.leb a b = true.

(** ** Test inputs *)

(** A file given line by line: the lines joined by a newline. *)
Fixpoint text (ls : list string) : jsstring :=
  match ls with
  | [] => []
  | [l] => lit l
  | l :: rest => lit l ++ newline :: text rest
  end.

(** A file system with the same content at every path. *)
Definition oneFile (content : jsstring) : filesystem :=
  fun _ => Some content.

(** Tags as [extractStartTags] hands them over. *)
Definition tagsOf (names : list string) : list tagEntry :=
  map (fun s => mkTag (lit s) "sample.kt" (lit "[START " ++ lit s ++ lit "]"))
      names.

(** ** Further vocabulary: counts and open regions *)

Definition isEnd (ev : event) : bool :=
  match type ev with START => false | END => true end.

(** End events among [events]. *)
Definition endsIn (events : list event) : nat :=
  length (filter isEnd events).

Definition isUnmatched (e : error) : bool :=
  match e with UNMATCHED_END _ _ => true | _ => false end.

Definition isMismatched (e : error) : bool :=
  match e with MISMATCHED_END _ _ _ _ => true | _ => false end.

(** [opens s events]: [events] is a run of properly nested regions in which
    the Starts of [s] stand, in this order, each never closed. *)
Inductive opens : list event -> list event -> Prop :=
| opens_none events : nested events -> opens [] events
| opens_more s events f body :
    opens s events -> type f = START -> nested body ->
    opens (s ++ [f]) (events ++ f :: body).

(** The same event [n] lines further down. *)
Definition shiftLine (n : nat) (e : event) : event :=
  mkEvent (type e) (tag e) (line e + n) (file e).

(** Neither the first nor the last code unit is whitespace. *)
Definition noEdgeSpace (t : jsstring) : Prop :=
  forall c, (hd_error t = Some c \/ hd_error (rev t) = Some c) ->
            isWhiteSpace c = false.

(** ** The rest of the substring script *)

(** The loop of [Regex.execAll] keeping [match[0]] as well: each answer is
    [(match.index, match[0], match[1])]. *)
Fixpoint execAllFull (re : Regex.cont (jsstring * jsstring)) (skip idx : nat)
         (s : jsstring) : list (nat * jsstring * jsstring) :=
  match s with
  | [] => []
  | _ :: s' =>
      match skip with
      | S n => execAllFull re n (S idx) s'
      | O =>
          match re s with
          | Some (cap, rest) =>
              (idx, firstn (length s - length rest) s, cap)
                :: execAllFull re (length s - length rest - 1) (S idx) s'
          | None => execAllFull re 0 (S idx) s'
          end
      end
  end.

Definition START_TAG_PATTERN := Regex.marker (lit "START").

(** [extractStartTags]: the pattern runs over the whole content, not line by
    line.  The pattern object is shared by all calls; every loop leaves its
    [lastIndex] at 0, so every call starts at the head of the content. *)
Definition extractStartTags (fs : filesystem) (filePath : path)
  : list tagEntry :=
  match fs filePath with
  | Some content =>
      map (fun m => mkTag (trim (snd m)) filePath (snd (fst m)))
          (execAllFull START_TAG_PATTERN 0 0 content)
  | None => []                         (* catch (err) { return []; } *)
  end.

(** [getTagLocations] *)
Definition getTagLocations (allTags : list tagEntry) (tagName : jsstring)
  : list path :=
  map t_file (filter (fun t => JS.eqb (t_tag t) tagName) allTags).

(** [allFiles.forEach(file => allTags.push(...extractStartTags(file)))] *)
Definition collectTags (fs : filesystem) (allFiles : list path)
  : list tagEntry :=
  flat_map (extractStartTags fs) allFiles.

(** ** Directory traversal: [getAllFiles] (the same in both scripts) *)

Set Warnings "-register-all".

(** What the traversal meets under a name.  The directories form a finite
    tree (no directory is reached twice). *)
Inductive fsnode :=
| File                     (* [statSync(..).isDirectory()] is false *)
| Dangling                 (* [statSync] throws *)
| Dir (entries : option (list (string * fsnode))).
                           (* [readdirSync]: the listing; [None]: throws *)

(** The names skipped by the traversal. *)
Definition excluded (file : string) : bool :=
  String.eqb file "node_modules" || String.eqb file ".git"
  || String.eqb file "build" || String.eqb file ".gradle".

Section Traversal.

(** [path.join] *)
Variable join : path -> string -> path.

Section ForEach.

Variable recurse : path -> fsnode -> list path -> option (list path).
Variable dirPath : path.

(** [files.forEach((file) => ...)] over the listing of [dirPath];
    [arrayOfFiles] is the one array shared by all calls.  [None]: an
    exception leaves the loop (nothing catches it). *)
Fixpoint forEachFile (files : list (string * fsnode))
         (arrayOfFiles : list path) : option (list path) :=
  match files with
  | [] => Some arrayOfFiles
  | (file, node) :: rest =>
      let fullPath := join dirPath file in
      if excluded file then forEachFile rest arrayOfFiles
      else
        match node with
        | Dangling => None
        | Dir _ =>
            match recurse fullPath node arrayOfFiles with
            | Some arrayOfFiles' => forEachFile rest arrayOfFiles'
            | None => None
            end
        | File => forEachFile rest (arrayOfFiles ++ [fullPath])
        end
  end.

End ForEach.

(** [getAllFiles(dirPath, arrayOfFiles)] where [dir] is what is at
    [dirPath]. *)
Fixpoint getAllFiles (dirPath : path) (dir : fsnode)
         (arrayOfFiles : list path) : option (list path) :=
  match dir with
  | Dir (Some files) =>
      forEachFile getAllFiles dirPath files arrayOfFiles
  | Dir None => None
  | File => None                       (* [readdirSync] of a file throws *)
  | Dangling => None
  end.

End Traversal.

(** The tree without what stands under a skipped name. *)
Fixpoint prune (n : fsnode) : fsnode :=
  match n with
  | Dir (Some files) =>
      Dir (Some
             ((fix each (l : list (string * fsnode)) :=
                 match l with
                 | [] => []
                 | (name, child) :: rest =>
                     if excluded name then each rest
                     else (name, prune child) :: each rest
                 end) files))
  | _ => n
  end.

(** A place where the traversal throws: a dangling entry or an unreadable
    directory, under names that are not skipped. *)
Inductive fatal : fsnode -> Prop :=
| fatal_dangling : fatal Dangling
| fatal_unreadable : fatal (Dir None)
| fatal_inside files name child :
    In (name, child) files -> excluded name = false -> fatal child ->
    fatal (Dir (Some files)).

(** * Properties of the validator *)

Section StackLemmas.

Lemma top_nil : top [] = None.
Proof. reflexivity. Qed.

Lemma top_snoc (s : list event) (x : event) : top (s ++ [x]) = Some x.
Proof.
  unfold top. rewrite length_app. simpl.
  replace (length s + 1 - 1) with (length s) by lia.
  rewrite nth_error_app2 by lia.
  now rewrite Nat.sub_diag.
Qed.

Lemma top_None (s : list event) : top s = None <-> s = [].
Proof.
  split; [|now intros ->].
  destruct s as [|x s] using rev_ind; [easy|].
  now rewrite top_snoc.
Qed.

Lemma skipn_length_app {A} (l m : list A) : skipn (length l) (l ++ m) = m.
Proof. induction l; simpl; auto. Qed.

Lemma skipn_length_self {A} (l : list A) : skipn (length l) l = [].
Proof. induction l; simpl; auto. Qed.

End StackLemmas.

(** One step, case by case. *)

Lemma onEvent_start_empty ev np errs :
  type ev = START ->
  onEvent (mkState [] np errs) ev = mkState [ev] np errs.
Proof. intros H. unfold onEvent. now rewrite H. Qed.

Lemma onEvent_start_open frames t ev np errs :
  type ev = START ->
  onEvent (mkState (frames ++ [t]) np errs) ev
  = mkState (frames ++ [t] ++ [ev])
            (np ++ [mkPair t ev (length (frames ++ [t]) + 1)]) errs.
Proof.
  intros H. unfold onEvent. rewrite H. simpl.
  now rewrite top_snoc, <- app_assoc.
Qed.

Lemma onEvent_end_empty ev np errs :
  type ev = END ->
  onEvent (mkState [] np errs) ev
  = mkState [] np (errs ++ [UNMATCHED_END (tag ev) (line ev)]).
Proof. intros H. unfold onEvent. now rewrite H. Qed.

Lemma onEvent_end_same frames t ev np errs :
  type ev = END -> tag t = tag ev ->
  onEvent (mkState (frames ++ [t]) np errs) ev = mkState frames np errs.
Proof.
  intros H E. unfold onEvent. rewrite H. simpl.
  rewrite top_snoc, removelast_last. unfold JS.eqb.
  now destruct (list_eq_dec N.eq_dec (tag t) (tag ev)).
Qed.

Lemma onEvent_end_other frames t ev np errs :
  type ev = END -> tag t <> tag ev ->
  onEvent (mkState (frames ++ [t]) np errs) ev
  = mkState frames np
            (errs ++ [MISMATCHED_END (tag t) (tag ev) (line t) (line ev)]).
Proof.
  intros H E. unfold onEvent. rewrite H. simpl.
  rewrite top_snoc, removelast_last. unfold JS.eqb.
  now destruct (list_eq_dec N.eq_dec (tag t) (tag ev)).
Qed.

Lemma processEvents_app st l1 l2 :
  processEvents st (l1 ++ l2) = processEvents (processEvents st l1) l2.
Proof. apply fold_left_app. Qed.

(** Pairs already pushed stay as they are, whatever comes next. *)
Lemma pairs_append_only events :
  forall st, exists more,
    nestedPairs (processEvents st events) = nestedPairs st ++ more.
Proof.
  induction events as [|ev events IH]; intros st; simpl.
  - exists []. now rewrite app_nil_r.
  - destruct (IH (onEvent st ev)) as (more & ->).
    unfold onEvent. destruct (type ev); simpl.
    + destruct (top (stack st)); [|now exists more].
      eexists. now rewrite <- app_assoc.
    + destruct (top (stack st)); now exists more.
Qed.

(** C1: a Start met with a non-empty stack pushes exactly one pair, whose
    outer is the top frame, whose inner is the Start and whose depth is the
    stack size plus 1; the pair holds the two events themselves and is not
    touched by what is processed later; the Start is pushed whatever its tag
    (and whatever the stack); [START a] .. [START b] .. [END b] .. [END a]
    gives the single pair (a, b, 2) and no error. *)
Theorem start_emits_one_pair_and_pushes :
  (forall frames t np errs tg ln f,
      let ev := mkEvent START tg ln f in
      let st := mkState (frames ++ [t]) np errs in
      emittedPairs st ev = [mkPair t ev (length (stack st) + 1)]
      /\ nestedPairs (onEvent st ev) = np ++ emittedPairs st ev
      /\ errors (onEvent st ev) = errs)
  /\ (forall frames t np errs tg ln f later,
         let ev := mkEvent START tg ln f in
         let st := mkState (frames ++ [t]) np errs in
         exists more,
           nestedPairs (processEvents st (ev :: later))
           = np ++ mkPair t ev (length (stack st) + 1) :: more)
  /\ (forall st tg ln f,
         stack (onEvent st (mkEvent START tg ln f))
         = stack st ++ [mkEvent START tg ln f])
  /\ (forall f,
         let a := mkEvent START (lit "a") 1 f in
         let b := mkEvent START (lit "b") 3 f in
         findNestedTags
           (oneFile (text ["// [START a]"; "outer"; "// [START b]"; "inner";
                           "// [END b]"; "// [END a]"]%string)) f
         = Some (mkReport f [mkPair a b 2] [] 4)
         /\ findNestedTags
              (oneFile (lit "[START a]...[START b]...[END b]...[END a]")) f
            = Some (mkReport f
                      [mkPair (mkEvent START (lit "a") 1 f)
                              (mkEvent START (lit "b") 1 f) 2] [] 4)).
Proof.
  split; [|split; [|split]].
  - intros frames t np errs tg ln f ev st.
    unfold emittedPairs, st.
    rewrite onEvent_start_open by reflexivity. simpl.
    now rewrite skipn_length_app.
  - intros frames t np errs tg ln f later ev st. simpl.
    destruct (pairs_append_only later (onEvent st ev)) as (more & ->).
    exists more. unfold st.
    rewrite onEvent_start_open by reflexivity. simpl.
    now rewrite <- app_assoc.
  - intros st tg ln f. reflexivity.
  - intros f. split; vm_compute; reflexivity.
Qed.

(** C3: an End whose tag differs from the top frame's pushes exactly one
    MISMATCHED_END built from the top frame and the End, and pops the frame;
    [START a] .. [END b] gives that single error, an empty stack and no
    UNCLOSED_START. *)
Theorem mismatched_end_reports_and_pops :
  (forall frames t np errs ev,
      type ev = END -> tag t <> tag ev ->
      let st := mkState (frames ++ [t]) np errs in
      emitted st ev
      = [MISMATCHED_END (tag t) (tag ev) (line t) (line ev)]
      /\ errors (onEvent st ev) = errs ++ emitted st ev
      /\ stack (onEvent st ev) = frames)
  /\ (forall f,
         let content := text ["// [START a]"; "code"; "// [END b]"]%string in
         stack (processEvents initial (parseTagEvents (oneFile content) f))
         = []
         /\ findNestedTags (oneFile content) f
            = Some (mkReport f []
                      [MISMATCHED_END (lit "a") (lit "b") 1 3] 2)
         /\ findNestedTags (oneFile (lit "[START a]...[END b]")) f
            = Some (mkReport f []
                      [MISMATCHED_END (lit "a") (lit "b") 1 1] 2)).
Proof.
  split.
  - intros frames t np errs ev H E st. unfold emitted, st.
    rewrite onEvent_end_other by assumption. simpl.
    now rewrite skipn_length_app.
  - intros f. repeat split; vm_compute; reflexivity.
Qed.

Lemma mismatched_end_reports_and_pops_witness :
  let t := mkEvent START (lit "a") 1 "f" in
  let ev := mkEvent END (lit "b") 3 "f" in
  emitted (mkState [t] [] []) ev = [MISMATCHED_END (lit "a") (lit "b") 1 3]
  /\ stack (onEvent (mkState [t] [] []) ev) = [].
Proof.
  intros t ev.
  destruct (proj1 mismatched_end_reports_and_pops [] t [] [] ev)
    as (H1 & _ & H3).
  - reflexivity.
  - discriminate.
  - split; [exact H1 | exact H3].
Defined.

(** Every step appends to [errors] and to [nestedPairs]. *)
Lemma errors_onEvent st ev :
  errors (onEvent st ev) = errors st ++ emitted st ev.
Proof.
  unfold emitted, onEvent.
  destruct (type ev); simpl.
  - now rewrite skipn_length_self, app_nil_r.
  - destruct (top (stack st)) as [t|]; simpl.
    + destruct (JS.eqb (tag t) (tag ev)).
      * now rewrite skipn_length_self, app_nil_r.
      * now rewrite skipn_length_app.
    + now rewrite skipn_length_app.
Qed.

Lemma onEvent_cases st ev :
  (type ev = START /\ stack st = []
   /\ onEvent st ev = mkState [ev] (nestedPairs st) (errors st))
  \/ (type ev = START /\ exists frames t,
         stack st = frames ++ [t]
         /\ onEvent st ev
            = mkState (stack st ++ [ev])
                (nestedPairs st ++ [mkPair t ev (length (stack st) + 1)])
                (errors st))
  \/ (type ev = END /\ stack st = []
      /\ onEvent st ev
         = mkState [] (nestedPairs st)
             (errors st ++ [UNMATCHED_END (tag ev) (line ev)]))
  \/ (type ev = END /\ exists frames t,
         stack st = frames ++ [t] /\ tag t = tag ev
         /\ onEvent st ev = mkState frames (nestedPairs st) (errors st))
  \/ (type ev = END /\ exists frames t,
         stack st = frames ++ [t] /\ tag t <> tag ev
         /\ onEvent st ev
            = mkState frames (nestedPairs st)
                (errors st
                   ++ [MISMATCHED_END (tag t) (tag ev) (line t) (line ev)])).
Proof.
  destruct st as [s np errs]. simpl.
  destruct (type ev) eqn:K; destruct s as [|t frames _] using rev_ind.
  - left. now rewrite onEvent_start_empty.
  - right; left. split; [easy|]. exists frames, t. split; [easy|].
    now rewrite onEvent_start_open, <- app_assoc.
  - do 2 right; left. now rewrite onEvent_end_empty.
  - do 3 right.
    destruct (list_eq_dec N.eq_dec (tag t) (tag ev)) as [E|E].
    + left. split; [easy|]. exists frames, t.
      now rewrite onEvent_end_same.
    + right. split; [easy|]. exists frames, t.
      now rewrite onEvent_end_other.
Qed.

(** C4, as stated, fails: with [a] open, [END b] finds no frame tagged [b]
    on the stack, yet what is pushed is a MISMATCHED_END and no
    UNMATCHED_END. *)
Lemma unmatched_end_on_absent_tag_fails :
  let st := mkState [mkEvent START (lit "a") 1 "f"] [] [] in
  let ev := mkEvent END (lit "b") 2 "f" in
  tagAbsent (stack st) (tag ev)
  /\ emitted st ev = [MISMATCHED_END (lit "a") (lit "b") 1 2]
  /\ ~ In (UNMATCHED_END (tag ev) (line ev)) (emitted st ev).
Proof.
  intros st ev. split; [|split].
  - intros fr [<-|[]]. discriminate.
  - reflexivity.
  - intros [H|[]]. discriminate.
Qed.

(** C4, amended: an End pushes an UNMATCHED_END exactly when the stack is
    empty; it is then the only error pushed and carries the End's tag and
    line; an End whose tag is on no frame of a non-empty stack is reported
    as a MISMATCHED_END against the top frame. *)
Theorem unmatched_end_iff_stack_empty st ev :
  type ev = END ->
  ((exists tg ln, In (UNMATCHED_END tg ln) (emitted st ev))
   <-> stack st = [])
  /\ (stack st = [] ->
      emitted st ev = [UNMATCHED_END (tag ev) (line ev)])
  /\ errors (onEvent st ev) = errors st ++ emitted st ev
  /\ (forall frames t,
         stack st = frames ++ [t] -> tagAbsent (stack st) (tag ev) ->
         emitted st ev
         = [MISMATCHED_END (tag t) (tag ev) (line t) (line ev)]).
Proof.
  intros K. split; [|split; [|split]]; [| |apply errors_onEvent|].
  3: { intros frames t S A. destruct st as [s np errs]. simpl in S. subst s.
       unfold emitted. rewrite onEvent_end_other; auto.
       - simpl. now rewrite skipn_length_app.
       - apply A. simpl. apply in_or_app. right. now left. }
  - unfold emitted.
    destruct (onEvent_cases st ev)
      as [(K' & _)|[(K' & _)|[(_ & S & ->)|[(_ & fs & t & S & _ & ->)
                                           |(_ & fs & t & S & _ & ->)]]]];
      try congruence; simpl.
    + rewrite skipn_length_app. split; [easy|]. intros _.
      exists (tag ev), (line ev). now left.
    + rewrite skipn_length_self, S. split.
      * now intros (? & ? & []).
      * intros E. symmetry in E. now apply app_cons_not_nil in E.
    + rewrite skipn_length_app, S. split.
      * intros (? & ? & [H|[]]). discriminate.
      * intros E. symmetry in E. now apply app_cons_not_nil in E.
  - intros S. destruct st as [s np errs]. simpl in S. subst s.
    unfold emitted. rewrite onEvent_end_empty by assumption. simpl.
    now rewrite skipn_length_app.
Qed.

Lemma unmatched_end_iff_stack_empty_witness :
  emitted initial (mkEvent END (lit "x") 1 "f")
  = [UNMATCHED_END (lit "x") 1].
Proof.
  apply (unmatched_end_iff_stack_empty initial (mkEvent END (lit "x") 1 "f"));
    reflexivity.
Defined.

(** ** Leftover frames *)

Section Subseq.

Context {A : Type}.
Implicit Types l m : list A.

Lemma subseq_nil_l m : subseq [] m.
Proof. induction m; constructor; auto. Qed.

Lemma subseq_snoc l m x : subseq l m -> subseq (l ++ [x]) (m ++ [x]).
Proof.
  induction 1; simpl.
  - apply subseq_take, subseq_nil.
  - now constructor.
  - now constructor.
Qed.

Lemma subseq_snoc_skip l m x : subseq l m -> subseq l (m ++ [x]).
Proof.
  induction 1; simpl.
  - apply subseq_skip, subseq_nil.
  - now constructor.
  - now constructor.
Qed.

Lemma subseq_removelast l m : subseq l m -> subseq (removelast l) m.
Proof.
  induction 1.
  - constructor.
  - now constructor.
  - destruct l as [|y l].
    + simpl. constructor. apply subseq_nil_l.
    + change (removelast (x :: y :: l)) with (x :: removelast (y :: l)).
      now constructor.
Qed.

End Subseq.

(** The stack holds Start events only, in the order of the file. *)
Lemma stack_invariant events :
  forall st pre,
    subseq (stack st) pre -> Forall (fun fr => type fr = START) (stack st) ->
    subseq (stack (processEvents st events)) (pre ++ events)
    /\ Forall (fun fr => type fr = START) (stack (processEvents st events)).
Proof.
  induction events as [|ev events IH]; intros st pre Hs Hf.
  - now rewrite app_nil_r.
  - simpl. replace (pre ++ ev :: events) with ((pre ++ [ev]) ++ events)
      by now rewrite <- app_assoc.
    apply IH.
    + unfold onEvent. destruct (type ev); simpl.
      * now apply subseq_snoc.
      * destruct (top (stack st)); simpl.
        -- now apply subseq_snoc_skip, subseq_removelast.
        -- now apply subseq_snoc_skip.
    + destruct (onEvent_cases st ev)
        as [(K & _ & ->)|[(K & fs & t & _ & ->)|[(_ & S & ->)
           |[(_ & fs & t & S & _ & ->)|(_ & fs & t & S & _ & ->)]]]]; simpl.
      * now constructor.
      * apply Forall_app. split; [assumption|now constructor].
      * constructor.
      * rewrite S in Hf. now apply Forall_app in Hf.
      * rewrite S in Hf. now apply Forall_app in Hf.
Qed.

(** No UNCLOSED_START is pushed while the events are processed. *)
Lemma no_unclosed_during events :
  forall st, filter isUnclosed (errors st) = [] ->
             filter isUnclosed (errors (processEvents st events)) = [].
Proof.
  induction events as [|ev events IH]; intros st H; [assumption|].
  simpl. apply IH.
  destruct (onEvent_cases st ev)
    as [(_ & _ & ->)|[(_ & fs & t & _ & ->)|[(_ & _ & ->)
       |[(_ & fs & t & _ & _ & ->)|(_ & fs & t & _ & _ & ->)]]]]; simpl;
    rewrite ?filter_app, ?H; auto.
Qed.

Lemma filter_unclosed s : filter isUnclosed (unclosed s) = unclosed s.
Proof. induction s; simpl; congruence. Qed.

(** C6: once the events of a file are processed, the report ends with one
    UNCLOSED_START per frame left on the stack, built from the frame's tag
    and line, bottom frame first; these are all the UNCLOSED_START errors of
    the report, and the frames are Start events in the order of the file.  A
    file with [START x] alone reports the single error UNCLOSED_START x. *)
Theorem unclosed_starts_in_push_order :
  (forall f events,
      events <> [] ->
      let st := processEvents initial events in
      exists r,
        analyze f events = Some r
        /\ r_errors r
           = errors st
               ++ map (fun fr => UNCLOSED_START (tag fr) (line fr)) (stack st)
        /\ filter isUnclosed (r_errors r)
           = map (fun fr => UNCLOSED_START (tag fr) (line fr)) (stack st)
        /\ subseq (stack st) events
        /\ Forall (fun fr => type fr = START) (stack st))
  /\ (forall f,
         findNestedTags (oneFile (text ["// [START x]"; "code"]%string)) f
         = Some (mkReport f [] [UNCLOSED_START (lit "x") 1] 1)).
Proof.
  split; [|intros f; vm_compute; reflexivity].
  intros f events Hne st.
  exists (mkReport f (nestedPairs st) (errors st ++ unclosed (stack st))
                   (length events)).
  split.
  - unfold analyze. now destruct events.
  - simpl r_errors. split; [reflexivity|]. split.
    + rewrite filter_app, filter_unclosed. unfold st.
      now rewrite no_unclosed_during.
    + apply stack_invariant with (st := initial) (pre := []); constructor.
Qed.

Lemma unclosed_starts_in_push_order_witness :
  let a := mkEvent START (lit "a") 1 "f" in
  let b := mkEvent START (lit "b") 2 "f" in
  let c := mkEvent END (lit "b") 3 "f" in
  let d := mkEvent START (lit "d") 4 "f" in
  exists r, analyze "f" [a; b; c; d] = Some r
            /\ filter isUnclosed (r_errors r)
               = [UNCLOSED_START (lit "a") 1; UNCLOSED_START (lit "d") 4].
Proof.
  intros a b c d.
  destruct (proj1 unclosed_starts_in_push_order "f"%string [a; b; c; d])
    as (r & H1 & _ & H3 & _).
  - discriminate.
  - exists r. split; [exact H1 | exact H3].
Defined.

(** ** Depth of a pair against the regions open at its inner Start *)

Lemma stack_length_onEvent st ev :
  length (stack (onEvent st ev))
  = match type ev with
    | START => S (length (stack st))
    | END => pred (length (stack st))
    end.
Proof.
  destruct (onEvent_cases st ev)
    as [(K & S & ->)|[(K & fs & t & S & ->)|[(K & S & ->)
       |[(K & fs & t & S & _ & ->)|(K & fs & t & S & _ & ->)]]]];
    rewrite K, ?S; simpl; rewrite ?length_app; simpl; lia.
Qed.

Lemma stack_length_openAfter events :
  length (stack (processEvents initial events)) = openAfter events.
Proof.
  unfold openAfter, processEvents.
  induction events as [|ev events IH] using rev_ind; [reflexivity|].
  rewrite !fold_left_app. simpl.
  now rewrite stack_length_onEvent, IH.
Qed.

Lemma closeNearest_length tg o :
  pred (length o) <= length (closeNearest tg o).
Proof.
  induction o as [|fr o IH]; simpl; [lia|].
  destruct (JS.eqb (tag fr) tg); simpl; lia.
Qed.

Lemma openAfter_le_openByTag events :
  openAfter events <= length (openByTag events).
Proof.
  unfold openAfter, openByTag.
  induction events as [|ev events IH] using rev_ind; [reflexivity|].
  rewrite !fold_left_app.
  set (n := fold_left _ events 0) in *.
  set (o := fold_left _ events []) in *.
  cbn [fold_left]. destruct (type ev); cbn [length]; [lia|].
  apply Nat.le_trans with (pred (length o)).
  - now apply Nat.pred_le_mono.
  - apply closeNearest_length.
Qed.

Lemma openAfter_le_startsIn events : openAfter events <= startsIn events.
Proof.
  unfold openAfter, startsIn.
  induction events as [|ev events IH] using rev_ind; [reflexivity|].
  rewrite fold_left_app, filter_app, length_app.
  set (n := fold_left _ events 0) in *.
  cbn [fold_left filter].
  destruct (isStart ev) eqn:I; unfold isStart in I;
    destruct (type ev); try discriminate; cbn [length]; lia.
Qed.

(** Each pair was pushed at its inner Start, with the size the stack has
    once that Start is on it. *)
Lemma pair_origin events p :
  In p (nestedPairs (processEvents initial events)) ->
  exists pre post,
    events = pre ++ inner p :: post
    /\ type (inner p) = START
    /\ depth p = length (stack (processEvents initial (pre ++ [inner p])))
    /\ 2 <= depth p.
Proof.
  induction events as [|ev events IH] using rev_ind; [intros []|].
  rewrite processEvents_app. simpl.
  set (st := processEvents initial events) in *.
  assert (Hold : In p (nestedPairs st) ->
                 exists pre post,
                   events ++ [ev] = pre ++ inner p :: post
                   /\ type (inner p) = START
                   /\ depth p
                      = length (stack (processEvents initial
                                         (pre ++ [inner p])))
                   /\ 2 <= depth p).
  { intros H. destruct (IH H) as (pre & post & -> & K & D & G).
    exists pre, (post ++ [ev]). now rewrite <- app_assoc. }
  destruct (onEvent_cases st ev)
    as [(K & S & ->)|[(K & fs & t & S & ->)|[(K & S & ->)
       |[(K & fs & t & S & _ & ->)|(K & fs & t & S & _ & ->)]]]];
    simpl; auto.
  intros H. apply in_app_or in H. destruct H as [H|[<-|[]]]; [auto|].
  exists events, []. simpl. repeat split; auto.
  - rewrite processEvents_app. simpl. fold st.
    rewrite stack_length_onEvent, K. lia.
  - rewrite S, length_app. simpl. lia.
Qed.

(** C9: the depth of every pair is the number of regions open once its inner
    Start is counted; it exceeds neither the Starts before and including the
    inner one that an End of their own tag has not closed, nor the Starts
    seen so far. *)
Theorem depth_at_most_open_starts events p :
  In p (nestedPairs (processEvents initial events)) ->
  exists pre post,
    events = pre ++ inner p :: post
    /\ type (inner p) = START
    /\ depth p = openAfter (pre ++ [inner p])
    /\ depth p <= length (openByTag (pre ++ [inner p]))
    /\ depth p <= startsIn (pre ++ [inner p]).
Proof.
  intros H. destruct (pair_origin events p H) as (pre & post & E & K & D & _).
  exists pre, post. rewrite stack_length_openAfter in D.
  repeat split; auto; rewrite D.
  - apply openAfter_le_openByTag.
  - apply openAfter_le_startsIn.
Qed.

Lemma depth_at_most_open_starts_witness :
  let a := mkEvent START (lit "a") 1 "f" in
  let b := mkEvent START (lit "b") 2 "f" in
  let c := mkEvent END (lit "z") 3 "f" in
  let d := mkEvent START (lit "d") 4 "f" in
  exists pre post,
    [a; b; c; d] = pre ++ d :: post
    /\ 2 = openAfter (pre ++ [d])
    /\ 2 <= startsIn (pre ++ [d]).
Proof.
  intros a b c d.
  destruct (depth_at_most_open_starts [a; b; c; d] (mkPair a d 2))
    as (pre & post & E & _ & D & _ & L).
  - simpl. right. left. reflexivity.
  - exists pre, post. repeat split; assumption.
Defined.

(** ** Properly nested sequences *)

Lemma nested_preserves events :
  nested events ->
  forall st,
    stack (processEvents st events) = stack st
    /\ errors (processEvents st events) = errors st.
Proof.
  induction 1 as [|s e body Ks Ke T _ IH|l1 l2 _ IH1 _ IH2]; intros st.
  - now split.
  - change (s :: body ++ [e]) with ([s] ++ body ++ [e]).
    rewrite !processEvents_app. simpl.
    destruct (IH (onEvent st s)) as (HS & HE).
    set (st2 := processEvents (onEvent st s) body) in *.
    assert (S1 : stack (onEvent st s) = stack st ++ [s])
      by (unfold onEvent; now rewrite Ks).
    assert (E1 : errors (onEvent st s) = errors st)
      by (unfold onEvent; now rewrite Ks).
    rewrite S1 in HS. rewrite E1 in HE.
    destruct st2 as [s2 np2 e2]. simpl in *. subst s2 e2.
    now rewrite onEvent_end_same.
  - rewrite processEvents_app.
    destruct (IH1 st) as (S1 & E1).
    destruct (IH2 (processEvents st l1)) as (S2 & E2).
    split; congruence.
Qed.

(** C10: on a properly nested sequence the validator pushes no error, leaves
    the stack empty, and the report of a non-empty one has no error. *)
Theorem nested_sequence_is_clean f events :
  nested events ->
  errors (processEvents initial events) = []
  /\ stack (processEvents initial events) = []
  /\ (events <> [] ->
      exists r, analyze f events = Some r /\ r_errors r = []).
Proof.
  intros H. destruct (nested_preserves H initial) as (S & E).
  simpl in *. repeat split; auto.
  intros Hne. unfold analyze.
  destruct events as [|e events]; [contradiction|].
  eexists. split; [reflexivity|].
  simpl r_errors. unfold processEvents in *. simpl in *.
  now rewrite S, E.
Qed.

Lemma nested_sequence_is_clean_witness :
  let a := mkEvent START (lit "a") 1 "f" in
  let b := mkEvent START (lit "b") 2 "f" in
  let b' := mkEvent END (lit "b") 3 "f" in
  let c := mkEvent START (lit "b") 4 "f" in
  let c' := mkEvent END (lit "b") 5 "f" in
  let a' := mkEvent END (lit "a") 6 "f" in
  errors (processEvents initial [a; b; b'; c; c'; a']) = []
  /\ stack (processEvents initial [a; b; b'; c; c'; a']) = [].
Proof.
  intros a b b' c c' a'.
  destruct (@nested_sequence_is_clean "f"%string [a; b; b'; c; c'; a'])
    as (E & S & _).
  - apply (nested_region a a' (body := [b; b'] ++ [c; c']));
      try reflexivity.
    apply nested_app.
    + apply (nested_region b b' (body := [])); try reflexivity.
      apply nested_nil.
    + apply (nested_region c c' (body := [])); try reflexivity.
      apply nested_nil.
  - split; [exact E | exact S].
Defined.

(** * Properties of the tokenizer *)

Section FilterLemmas.

Context {A : Type}.

Lemma filter_all (p : A -> bool) l :
  (forall x, In x l -> p x = true) -> filter p l = l.
Proof.
  induction l as [|a l IH]; simpl; intros H; [reflexivity|].
  rewrite (H a) by now left. f_equal. apply IH. intros; apply H; now right.
Qed.

Lemma filter_none (p : A -> bool) l :
  (forall x, In x l -> p x = false) -> filter p l = [].
Proof.
  induction l as [|a l IH]; simpl; intros H; [reflexivity|].
  rewrite (H a) by now left. apply IH. intros; apply H; now right.
Qed.

End FilterLemmas.

(** ** What a match is *)

Module RegexFacts.
Import Regex.

Lemma startsWith_app s p :
  startsWith s p = true -> s = p ++ skipn (length p) s.
Proof.
  revert s; induction p as [|a p IH]; intros s H; [reflexivity|].
  destruct s as [|b s]; [discriminate|]. simpl in *.
  apply andb_prop in H. destruct H as (E & H).
  apply N.eqb_eq in E. subst b. f_equal. now apply IH.
Qed.

(** A successful [c+] has taken a non-empty run of the class and handed
    the rest to its continuation. *)
Lemma mPlus_some {A} p (k : jsstring -> cont A) s :
  forall acc r,
    mPlus p k acc s = Some r ->
    exists taken rest,
      s = taken ++ rest /\ taken <> []
      /\ Forall (fun c => p c = true) taken
      /\ k (acc ++ taken) rest = Some r.
Proof.
  induction s as [|c s IH]; intros acc r H; [discriminate|].
  simpl in H. destruct (p c) eqn:P; [|discriminate].
  destruct (mPlus p k (acc ++ [c]) s) as [r'|] eqn:M.
  - injection H as <-.
    destruct (IH _ _ M) as (taken & rest & -> & _ & F & K).
    exists (c :: taken), rest. rewrite <- app_assoc in K.
    repeat split; auto. discriminate.
  - exists [c], s. repeat split; auto. discriminate.
Qed.

Lemma mLit_some {A} l (k : cont A) s r :
  mLit l k s = Some r ->
  exists rest, s = l ++ rest /\ k rest = Some r.
Proof.
  unfold mLit. destruct (startsWith s l) eqn:P; [|discriminate].
  intros H. exists (skipn (length l) s). split; [|assumption].
  now apply startsWith_app.
Qed.

(** A match of [/\[KW\s+([^\]]+)\]/] at the head of [s]. *)
Lemma marker_some kw s cap rest :
  marker kw s = Some (cap, rest) ->
  exists ws,
    s = lit "[" ++ kw ++ ws ++ cap ++ rbracket :: rest
    /\ ws <> [] /\ Forall (fun c => isWhiteSpace c = true) ws
    /\ cap <> [] /\ Forall (fun c => c <> rbracket) cap.
Proof.
  unfold marker. intros H.
  destruct (mLit_some _ _ _ H) as (s0 & E0 & H0).
  destruct (mPlus_some _ _ _ _ H0) as (ws & s1 & E1 & N1 & F1 & H1).
  destruct (mPlus_some _ _ _ _ H1) as (cp & s2 & E2 & N2 & F2 & H2).
  destruct (mLit_some _ _ _ H2) as (s3 & E3 & H3).
  injection H3 as <- <-.
  exists ws. rewrite E0, E1, E2, E3. rewrite <- !app_assoc.
  repeat split; auto.
  eapply Forall_impl; [|exact F2]. intros c Hc ->. discriminate.
Qed.

(** Matches are met from left to right. *)
Lemma execAll_indices re s :
  forall skip idx,
    Forall (fun m => idx <= fst m) (execAll re skip idx s)
    /\ StronglySorted lt (map fst (execAll re skip idx s)).
Proof.
  induction s as [|c s IH]; intros skip idx; cbn [execAll].
  - split; constructor.
  - assert (Up : forall k, Forall (fun m => idx <= fst m)
                             (execAll re k (S idx) s)).
    { intros k. destruct (IH k (S idx)) as (F & _).
      eapply Forall_impl; [|exact F]. simpl. intros; lia. }
    destruct skip as [|n]; [|split; [apply Up|apply IH]].
    destruct (re (c :: s)) as [[cap rest]|]; [|split; [apply Up|apply IH]].
    set (k := length (c :: s) - length rest - 1).
    split.
    + constructor; [simpl; lia|apply Up].
    + cbn [map fst]. constructor; [apply IH|].
      apply Forall_map. destruct (IH k (S idx)) as (F & _).
      eapply Forall_impl; [|exact F]. simpl. intros; lia.
Qed.

(** Every answer of the loop is a match of the pattern at its index. *)
Lemma execAll_matches re s :
  forall skip idx i cap,
    In (i, cap) (execAll re skip idx s) ->
    idx <= i /\ exists rest, re (skipn (i - idx) s) = Some (cap, rest).
Proof.
  induction s as [|c s IH]; intros skip idx i cap H; [destruct H|].
  cbn [execAll] in H.
  assert (Next : forall k, In (i, cap) (execAll re k (S idx) s) ->
                           idx <= i /\ exists rest,
                             re (skipn (i - idx) (c :: s))
                             = Some (cap, rest)).
  { intros k Hk. destruct (IH _ _ _ _ Hk) as (L & rest & R).
    split; [lia|]. exists rest.
    replace (i - idx) with (S (i - S idx)) by lia. exact R. }
  destruct skip as [|n]; [|eauto].
  destruct (re (c :: s)) as [[cap0 rest0]|] eqn:R; [|eauto].
  destruct H as [H|H]; [|eauto].
  injection H as <- <-. split; [lia|].
  exists rest0. now rewrite Nat.sub_diag.
Qed.

(** No match without an opening bracket. *)
Lemma execAll_no_bracket kw s :
  ~ In 91%N s -> forall skip idx, execAll (marker kw) skip idx s = [].
Proof.
  induction s as [|c s IH]; intros H skip idx; [reflexivity|].
  assert (H' : ~ In 91%N s) by (intros ?; apply H; now right).
  cbn [execAll]. destruct skip; [|now apply IH].
  destruct (marker kw (c :: s)) as [[cap rest]|] eqn:M; [|now apply IH].
  destruct (marker_some _ _ M) as (ws & E & _).
  injection E as -> _. exfalso. apply H. now left.
Qed.

End RegexFacts.

(** ** The matcher on concrete lines *)

Example whitespace_units :
  map isWhiteSpace [9; 10; 13; 32; 160; 8203; 12288; 65279; 93; 97]%N
  = [true; true; true; true; true; false; true; true; false; false].
Proof. reflexivity. Qed.

(** [\s+] gives one unit back so that the group can match. *)
Example marker_backtracks :
  startRegex (lit "[START  ]x") = Some (lit " ", lit "x").
Proof. reflexivity. Qed.

Example marker_needs_content : startRegex (lit "[START ]") = None.
Proof. reflexivity. Qed.

Example marker_is_case_sensitive : startRegex (lit "[start a]") = None.
Proof. reflexivity. Qed.

(** The search resumes where the previous match ended. *)
Example exec_resumes_after_match :
  Regex.execAll startRegex 0 0 (lit "[START a][START b] [START [START c]")
  = [(0, lit "a"); (9, lit "b"); (19, lit "[START c")].
Proof. reflexivity. Qed.

(** ** [trim] *)

Lemma trimStart_nil s : trimStart s = [] <-> allWhiteSpace s.
Proof.
  induction s as [|c s IH]; simpl.
  - split; [constructor|reflexivity].
  - destruct (isWhiteSpace c) eqn:W.
    + rewrite IH. split; [now constructor|now inversion 1].
    + split; [discriminate|]. inversion 1; congruence.
Qed.

Lemma trimStart_suffix s : exists ws, allWhiteSpace ws /\ s = ws ++ trimStart s.
Proof.
  induction s as [|c s (ws & F & E)]; simpl.
  - exists []. split; [constructor|reflexivity].
  - destruct (isWhiteSpace c) eqn:W.
    + exists (c :: ws). split; [now constructor|]. simpl. now f_equal.
    + exists []. split; [constructor|reflexivity].
Qed.

Lemma trimStart_skips ws s :
  allWhiteSpace ws -> trimStart (ws ++ s) = trimStart s.
Proof. induction 1 as [|c ws W _ IH]; simpl; [reflexivity|now rewrite W]. Qed.

Lemma trim_nil s : trim s = [] <-> allWhiteSpace s.
Proof.
  unfold trim, trimEnd. split.
  - intros H. apply (f_equal (@rev N)) in H. rewrite rev_involutive in H.
    simpl in H. apply trimStart_nil in H.
    destruct (trimStart_suffix s) as (ws & F & E).
    rewrite E. apply Forall_app. split; [assumption|].
    apply Forall_rev in H. now rewrite rev_involutive in H.
  - intros H. apply trimStart_nil in H. now rewrite H.
Qed.

Lemma trim_skips ws s : allWhiteSpace ws -> trim (ws ++ s) = trim s.
Proof. intros H. unfold trim. now rewrite trimStart_skips. Qed.

(** ** Events of a file, line by line *)

Lemma lineEvents_line f k ln e : In e (lineEvents f k ln) -> line e = k + 1.
Proof.
  unfold lineEvents. intros H. apply in_app_or in H.
  destruct H as [H|H]; apply in_map_iff in H;
    destruct H as (m & <- & _); reflexivity.
Qed.

Lemma eventsFrom_line f lines :
  forall k e, In e (eventsFrom f k lines) -> k + 1 <= line e.
Proof.
  induction lines as [|ln lines IH]; intros k e H; [destruct H|].
  simpl in H. apply in_app_or in H. destruct H as [H|H].
  - apply lineEvents_line in H. lia.
  - apply IH in H. lia.
Qed.

Lemma eventsFrom_sorted f lines :
  forall k, StronglySorted le (map line (eventsFrom f k lines)).
Proof.
  induction lines as [|ln lines IH]; intros k; simpl; [constructor|].
  rewrite map_app.
  assert (G : forall l,
             (forall e, In e l -> line e = k + 1) ->
             StronglySorted le
               (map line l ++ map line (eventsFrom f (S k) lines))).
  { induction l as [|e l IHl]; intros Hl; simpl; [apply IH|].
    constructor.
    - apply IHl. intros; apply Hl; now right.
    - apply Forall_app. split; apply Forall_map, Forall_forall; intros x Hx.
      + rewrite (Hl e), (Hl x); auto; [now right|now left].
      + rewrite (Hl e) by now left. apply eventsFrom_line in Hx. lia. }
  apply G. intros e. apply lineEvents_line.
Qed.

Lemma eventsFrom_on_line f lines :
  forall k i ln,
    nth_error lines i = Some ln ->
    filter (fun e => line e =? k + i + 1) (eventsFrom f k lines)
    = lineEvents f (k + i) ln.
Proof.
  induction lines as [|l0 lines IH]; intros k i ln H;
    [now destruct i|].
  simpl. rewrite filter_app. destruct i as [|i]; simpl in H.
  - injection H as ->. rewrite Nat.add_0_r.
    rewrite filter_all, filter_none; [apply app_nil_r| |].
    + intros e He. apply eventsFrom_line in He. apply Nat.eqb_neq. lia.
    + intros e He. apply lineEvents_line in He. apply Nat.eqb_eq. lia.
  - rewrite filter_none.
    + simpl. replace (k + S i) with (S k + i) by lia. now apply IH.
    + intros e He. apply lineEvents_line in He. apply Nat.eqb_neq. lia.
Qed.

Lemma in_split sep s l c : In l (split sep s) -> In c l -> In c s.
Proof.
  revert l; induction s as [|a s IH]; intros l Hl Hc; simpl in Hl.
  - destruct Hl as [<-|[]]. destruct Hc.
  - destruct (a =? sep)%N.
    + destruct Hl as [<-|Hl]; [destruct Hc|]. right. eauto.
    + destruct (split sep s) as [|l0 ls] eqn:S.
      * destruct Hl as [<-|[]]. destruct Hc as [<-|[]]. now left.
      * destruct Hl as [<-|Hl].
        -- destruct Hc as [<-|Hc]; [now left|]. right.
           apply (IH l0); [now left|assumption].
        -- right. apply (IH l); [now right|assumption].
Qed.

Lemma split_no_sep sep s l : In l (split sep s) -> ~ In sep l.
Proof.
  revert l; induction s as [|a s IH]; intros l Hl; simpl in Hl.
  - destruct Hl as [<-|[]]. intros [].
  - destruct (a =? sep)%N eqn:E.
    + destruct Hl as [<-|Hl]; [intros []|now apply IH].
    + apply N.eqb_neq in E. destruct (split sep s) as [|l0 ls] eqn:S.
      * destruct Hl as [<-|[]]. intros [?|[]]. congruence.
      * destruct Hl as [<-|Hl].
        -- intros [?|H]; [congruence|]. apply (IH l0); [now left|assumption].
        -- apply IH. now right.
Qed.

Lemma eventsFrom_in f lines :
  forall k e, In e (eventsFrom f k lines) ->
              exists i ln, nth_error lines i = Some ln
                           /\ In e (lineEvents f (k + i) ln).
Proof.
  induction lines as [|l0 lines IH]; intros k e H; [destruct H|].
  simpl in H. apply in_app_or in H. destruct H as [H|H].
  - exists 0, l0. now rewrite Nat.add_0_r.
  - destruct (IH _ _ H) as (i & ln & N & I).
    exists (S i), ln. split; [assumption|].
    now replace (k + S i) with (S k + i) by lia.
Qed.

(** C2: the code breaks the order within a line.  On a line where [END a]
    stands to the left of [START b] (indices 3 and 11) the Start event comes
    out first, although markers of one kind do come out from left to right.
    The validator, which goes by the order of the events, is misled: two
    regions one after the other on a line are reported as a nested pair with
    two MISMATCHED_END, and an End before its Start is reported clean. *)
Lemma end_left_of_start_comes_out_second :
  let ln := lit "// [END a] [START b]" in
  map fst (Regex.execAll endRegex 0 0 ln) = [3]
  /\ map fst (Regex.execAll startRegex 0 0 ln) = [11]
  /\ tokenize "f" ln
     = [mkEvent START (lit "b") 1 "f"; mkEvent END (lit "a") 1 "f"]
  /\ tokenize "f" (lit "// [START a] [START b]")
     = [mkEvent START (lit "a") 1 "f"; mkEvent START (lit "b") 1 "f"]
  /\ findNestedTags
       (oneFile (lit "[START a] x [END a] [START b] y [END b]")) "f"
     = Some (mkReport "f"
               [mkPair (mkEvent START (lit "a") 1 "f")
                       (mkEvent START (lit "b") 1 "f") 2]
               [MISMATCHED_END (lit "b") (lit "a") 1 1;
                MISMATCHED_END (lit "a") (lit "b") 1 1] 4)
  /\ findNestedTags (oneFile (lit "[END a] [START a]")) "f"
     = Some (mkReport "f" [] [] 2).
Proof. vm_compute. repeat split. Qed.

(** The order of the events as the two loops produce it, the slip on mixed
    lines included: line numbers never decrease; the events of one line are
    its Start events followed by its End events; within each of the two
    groups the markers are in left-to-right order of their positions in the
    line, and each position is one where the marker stands. *)
Lemma events_by_line_starts_before_ends f content :
  StronglySorted le (map line (tokenize f content))
  /\ (forall i ln,
         nth_error (split newline content) i = Some ln ->
         filter (fun e => line e =? i + 1) (tokenize f content)
         = map (fun m => mkEvent START (trim (snd m)) (i + 1) f)
               (Regex.execAll startRegex 0 0 ln)
           ++ map (fun m => mkEvent END (trim (snd m)) (i + 1) f)
                  (Regex.execAll endRegex 0 0 ln))
  /\ (forall k ln,
         StronglySorted lt
           (map fst (Regex.execAll (Regex.marker (keyword k)) 0 0 ln)))
  /\ (forall k ln i cap,
         In (i, cap) (Regex.execAll (Regex.marker (keyword k)) 0 0 ln) ->
         exists ws rest,
           skipn i ln
           = lit "[" ++ keyword k ++ ws ++ cap ++ rbracket :: rest).
Proof.
  split; [|split; [|split]].
  - apply eventsFrom_sorted.
  - intros i ln H. unfold tokenize.
    exact (eventsFrom_on_line f _ 0 i H).
  - intros k ln. apply RegexFacts.execAll_indices.
  - intros k ln i cap H.
    destruct (RegexFacts.execAll_matches _ _ _ _ _ _ H) as (_ & rest & M).
    rewrite Nat.sub_0_r in M.
    destruct (RegexFacts.marker_some _ _ M) as (ws & E & _).
    now exists ws, rest.
Qed.

Lemma events_by_line_starts_before_ends_witness :
  filter (fun e => line e =? 2)
         (tokenize "f" (text ["// one"; "[END a] [START b] [START c]"]%string))
  = [mkEvent START (lit "b") 2 "f"; mkEvent START (lit "c") 2 "f";
     mkEvent END (lit "a") 2 "f"].
Proof.
  destruct (events_by_line_starts_before_ends "f"
              (text ["// one"; "[END a] [START b] [START c]"]%string))
    as (_ & H & _).
  exact (H 1 (lit "[END a] [START b] [START c]") eq_refl).
Defined.

(** C8: the code lets an empty tag through.  The pattern asks for a name of
    at least one unit, and a marker with no name or with one blank is not
    matched; with two blanks the whitespace quantifier gives one back, the
    group takes it, and trimming leaves the empty tag. *)
Lemma blank_content_gives_empty_tag :
  tokenize "f" (lit "// [START  ]") = [mkEvent START [] 1 "f"]
  /\ (exists e, In e (tokenize "f" (lit "// [START  ]")) /\ tag e = [])
  /\ tokenize "f" (lit "// [START]") = []
  /\ tokenize "f" (lit "// [START ]") = []
  /\ tokenize "f" (lit "// [END  ]") = [mkEvent END [] 1 "f"].
Proof.
  split; [vm_compute; reflexivity|]. split.
  - exists (mkEvent START [] 1 "f").
    split; [vm_compute; now left|reflexivity].
  - vm_compute. repeat split.
Qed.

(** Where the tag of an event comes from, as the pattern is written: it is
    the text between the keyword and the closing bracket, trimmed; that text
    is at least two code units long (whitespace [ws], then [cap]) and holds
    no closing bracket; the tag comes out empty exactly when the text is
    whitespace throughout. *)
Lemma tag_is_trimmed_bracket_content f content e :
  In e (tokenize f content) ->
  exists ln i ws cap rest,
    nth_error (split newline content) (line e - 1) = Some ln
    /\ skipn i ln
       = lit "[" ++ keyword (type e) ++ (ws ++ cap) ++ rbracket :: rest
    /\ ws <> [] /\ allWhiteSpace ws
    /\ cap <> [] /\ Forall (fun c => c <> rbracket) cap
    /\ tag e = trim (ws ++ cap)
    /\ (tag e = [] <-> allWhiteSpace (ws ++ cap)).
Proof.
  intros H. unfold tokenize in H.
  destruct (eventsFrom_in _ _ _ _ H) as (i & ln & N & I).
  pose proof (lineEvents_line _ _ _ _ I) as L. simpl in I, L.
  assert (G : exists k idx cap,
             In (idx, cap) (Regex.execAll (Regex.marker (keyword k)) 0 0 ln)
             /\ type e = k /\ tag e = trim cap).
  { unfold lineEvents in I. apply in_app_or in I.
    destruct I as [I|I]; apply in_map_iff in I;
      destruct I as ([idx cap] & <- & I);
      [exists START|exists END]; exists idx, cap; now split. }
  destruct G as (k & idx & cap & M & K & T).
  destruct (RegexFacts.execAll_matches _ _ _ _ _ _ M) as (_ & rest & R).
  rewrite Nat.sub_0_r in R.
  destruct (RegexFacts.marker_some _ _ R) as (ws & E & N1 & F1 & N2 & F2).
  exists ln, idx, ws, cap, rest.
  replace (line e - 1) with i by lia. rewrite K, <- app_assoc.
  repeat split; auto.
  - rewrite T. symmetry. now apply trim_skips.
  - rewrite T, trim_nil. intros A. now apply Forall_app.
  - rewrite T, trim_nil. intros A. now apply Forall_app in A.
Qed.

Lemma tag_is_trimmed_bracket_content_witness :
  exists ln i ws cap rest,
    nth_error (split newline (lit "x [END  a b ]")) 0 = Some ln
    /\ skipn i ln = lit "[" ++ lit "END" ++ (ws ++ cap) ++ rbracket :: rest
    /\ lit "a b" = trim (ws ++ cap).
Proof.
  destruct (@tag_is_trimmed_bracket_content "f" (lit "x [END  a b ]")
              (mkEvent END (lit "a b") 1 "f"))
    as (ln & i & ws & cap & rest & H1 & H2 & _ & _ & _ & _ & H3 & _).
  - vm_compute. now left.
  - exists ln, i, ws, cap, rest. repeat split; assumption.
Defined.

(** C7: a file that yields no event -- it cannot be read, it has no opening
    bracket at all, or the tokenizer finds no marker in it -- gets no report,
    adds nothing to what [main] accumulates, and the scan of the other files
    goes on as if the file were not there. *)
Theorem silent_file_has_no_findings fs relative f :
  fs f = None
  \/ (exists c, fs f = Some c /\ ~ In lbracket c)
  \/ parseTagEvents fs f = [] ->
  parseTagEvents fs f = []
  /\ findNestedTags fs f = None
  /\ (forall acc, scanFile fs relative acc f = acc)
  /\ (forall pre post,
         scan fs relative (pre ++ f :: post) = scan fs relative (pre ++ post)).
Proof.
  intros H.
  assert (E : parseTagEvents fs f = []).
  { destruct H as [H|[(c & H & B)|H]]; [| |assumption];
      unfold parseTagEvents; rewrite H; [reflexivity|].
    unfold tokenize.
    assert (G : forall lines k,
               (forall l, In l lines -> ~ In lbracket l) ->
               eventsFrom f k lines = []).
    { induction lines as [|l lines IH]; intros k Hl; [reflexivity|].
      simpl. rewrite IH by (intros; apply Hl; now right).
      unfold lineEvents, startRegex, endRegex.
      now rewrite !RegexFacts.execAll_no_bracket by (apply Hl; now left). }
    apply G. intros l Hl Hb. apply B. eapply in_split; eauto. }
  assert (F : findNestedTags fs f = None)
    by (unfold findNestedTags; now rewrite E).
  assert (S : forall acc, scanFile fs relative acc f = acc)
    by (intros acc; unfold scanFile; now rewrite F).
  repeat split; auto.
  intros pre post. unfold scan. rewrite !fold_left_app. simpl.
  now rewrite S.
Qed.

Lemma silent_file_has_no_findings_witness :
  let fs := fun p : path =>
              if String.eqb p "gone" then None
              else Some (text ["[START a]"; "[START b]"; "[END a]"]%string) in
  scan fs (fun p => p) ["x"; "gone"; "y"]%string
  = scan fs (fun p => p) ["x"; "y"]%string.
Proof.
  intros fs.
  apply (@silent_file_has_no_findings fs (fun p => p) "gone"%string
           (or_introl eq_refl)).
Defined.

(** * Properties of the substring detector *)

Module JSFacts.

Lemma eqb_eq a b : JS.eqb a b = true <-> a = b.
Proof.
  unfold JS.eqb. destruct (list_eq_dec N.eq_dec a b); split; congruence.
Qed.

Lemma eqb_refl a : JS.eqb a a = true.
Proof. now apply eqb_eq. Qed.

Lemma startsWith_iff s p :
  startsWith s p = true <-> exists post, s = p ++ post.
Proof.
  split.
  - intros H. eexists. now apply RegexFacts.startsWith_app.
  - intros (post & ->). induction p as [|a p IH]; simpl; [reflexivity|].
    now rewrite N.eqb_refl.
Qed.

(** [includes] finds [p] as a run of consecutive code units of [s]. *)
Lemma includes_iff s p :
  includes s p = true <-> exists pre post, s = pre ++ p ++ post.
Proof.
  induction s as [|c s IH].
  - simpl. rewrite orb_false_r, startsWith_iff. split.
    + intros (post & E). now exists [], post.
    + intros (pre & post & E). exists post.
      destruct pre; [assumption|discriminate].
  - cbn [includes]. rewrite orb_true_iff, startsWith_iff, IH. split.
    + intros [(post & E)|(pre & post & E)].
      * now exists [], post.
      * exists (c :: pre), post. simpl. now f_equal.
    + intros (pre & post & E). destruct pre as [|c' pre].
      * left. now exists post.
      * right. injection E as _ E. now exists pre, post.
Qed.

Lemma existsb_eqb t acc : existsb (JS.eqb t) acc = true <-> In t acc.
Proof.
  rewrite existsb_exists. split.
  - intros (x & I & E). apply eqb_eq in E. now subst.
  - intros I. exists t. split; [assumption|apply eqb_refl].
Qed.

Lemma setOf_acc l :
  forall acc,
    NoDup acc ->
    let r := fold_left
               (fun acc t =>
                  if existsb (JS.eqb t) acc then acc else acc ++ [t])
               l acc in
    NoDup r /\ forall x, In x r <-> In x acc \/ In x l.
Proof.
  induction l as [|t l IH]; intros acc ND; simpl.
  - split; [assumption|]. intros x. tauto.
  - destruct (existsb (JS.eqb t) acc) eqn:E.
    + apply existsb_eqb in E.
      destruct (IH acc ND) as (N1 & I1). split; [assumption|].
      intros x. rewrite I1. intuition (subst; auto).
    + assert (NI : ~ In t acc)
        by (intros I; apply existsb_eqb in I; congruence).
      destruct (IH (acc ++ [t])) as (N1 & I1).
      * apply NoDup_app; auto.
        -- repeat constructor. intros [].
        -- intros a Ia [<-|[]]. contradiction.
      * split; [assumption|]. intros x. rewrite I1, in_app_iff. simpl.
        tauto.
Qed.

Lemma setOf_NoDup l : NoDup (setOf l).
Proof. apply (setOf_acc l (acc := [])). constructor. Qed.

Lemma setOf_In l x : In x (setOf l) <-> In x l.
Proof.
  unfold setOf. destruct (setOf_acc l (acc := [])) as (_ & I);
    [constructor|].
  rewrite I. simpl. tauto.
Qed.

Lemma insert_In a l x : In x (JS.insert a l) <-> x = a \/ In x l.
Proof.
  induction l as [|y l IH]; simpl.
  - intuition.
  - destruct (JS.leb a y); simpl; [intuition|]. rewrite IH. intuition.
Qed.

Lemma insert_NoDup a l : NoDup l -> ~ In a l -> NoDup (JS.insert a l).
Proof.
  induction l as [|y l IH]; simpl; intros ND NI.
  - repeat constructor. intros [].
  - destruct (JS.leb a y); [now constructor|].
    inversion ND as [|? ? Ny ND']; subst. constructor.
    + rewrite insert_In. intros [->|I]; [apply NI; now left|contradiction].
    + apply IH; [assumption|]. intros I. apply NI. now right.
Qed.

Lemma sort_In l x : In x (JS.sort l) <-> In x l.
Proof.
  induction l as [|a l IH]; simpl; [tauto|].
  rewrite insert_In, IH. intuition.
Qed.

Lemma leb_total a : forall b, JS.leb a b = false -> JS.leb b a = true.
Proof.
  induction a as [|x a IH]; intros [|y b]; simpl; try easy.
  destruct (x <? y)%N eqn:L1; [discriminate|].
  destruct (y <? x)%N eqn:L2; [reflexivity|]. apply IH.
Qed.

Lemma insert_sorted a l :
  LocallySorted lePair l -> LocallySorted lePair (JS.insert a l).
Proof.
  induction 1 as [|y|y z l S IH L]; simpl.
  - constructor.
  - destruct (JS.leb a y) eqn:E.
    + constructor; [constructor|exact E].
    + constructor; [constructor|]. now apply leb_total.
  - destruct (JS.leb a y) eqn:E.
    + constructor; [|exact E]. now constructor.
    + simpl in IH. destruct (JS.leb a z) eqn:E'.
      * constructor; [exact IH|]. now apply leb_total.
      * now constructor.
Qed.

(** [sort] does sort. *)
Lemma sort_sorted l : LocallySorted lePair (JS.sort l).
Proof.
  induction l as [|a l IH]; simpl; [constructor|now apply insert_sorted].
Qed.

Lemma sort_NoDup l : NoDup l -> NoDup (JS.sort l).
Proof.
  induction 1 as [|a l NI ND IH]; simpl; [constructor|].
  apply insert_NoDup; [assumption|]. now rewrite sort_In.
Qed.

End JSFacts.

Lemma flat_map_map {A B C} (f : A -> B) (g : B -> list C) l :
  flat_map g (map f l) = flat_map (fun x => g (f x)) l.
Proof. induction l; simpl; congruence. Qed.

Lemma flat_map_nth_seq {A B} (g : A -> list B) (d : A) u :
  flat_map (fun j => g (nth j u d)) (seq 0 (length u)) = flat_map g u.
Proof.
  induction u as [|a u IH]; [reflexivity|].
  cbn [length seq flat_map nth]. f_equal.
  rewrite <- seq_shift, flat_map_map. exact IH.
Qed.

(** The index test [i !== j] adds nothing to the test on the strings. *)
Lemma pairsOf_by_value u :
  pairsOf u = flat_map (fun a => flat_map (fun b => candidate a b) u) u.
Proof.
  unfold pairsOf.
  rewrite <- (flat_map_nth_seq
                (fun a => flat_map (fun b => candidate a b) u) [] u).
  apply flat_map_ext. intros i.
  rewrite <- (flat_map_nth_seq (fun b => candidate (nth i u []) b) [] u).
  apply flat_map_ext. intros j.
  destruct (i =? j) eqn:E; simpl; [|reflexivity].
  apply Nat.eqb_eq in E. subst j. unfold candidate.
  now rewrite JSFacts.eqb_refl, andb_false_r.
Qed.

Lemma candidate_In a b p :
  In p (candidate a b)
  <-> p = mkSub a b /\ includes b a = true /\ a <> b.
Proof.
  unfold candidate.
  destruct (includes b a); simpl.
  - destruct (JS.eqb a b) eqn:E; simpl.
    + apply JSFacts.eqb_eq in E. intuition.
    + assert (a <> b) by (intros H; apply JSFacts.eqb_eq in H; congruence).
      intuition.
  - intuition. discriminate.
Qed.

Lemma pairsOf_In u p :
  In p (pairsOf u)
  <-> In (substring p) u /\ In (superstring p) u
      /\ includes (superstring p) (substring p) = true
      /\ substring p <> superstring p.
Proof.
  rewrite pairsOf_by_value, in_flat_map. split.
  - intros (a & Ia & H). apply in_flat_map in H.
    destruct H as (b & Ib & H). apply candidate_In in H.
    destruct H as (-> & I & D). simpl. auto.
  - intros (Ia & Ib & I & D). exists (substring p). split; [assumption|].
    apply in_flat_map. exists (superstring p). split; [assumption|].
    apply candidate_In. destruct p; simpl in *. auto.
Qed.

Lemma NoDup_flat_map {A B} (f : A -> list B) l :
  NoDup l -> (forall x, NoDup (f x)) ->
  (forall x y z, In z (f x) -> In z (f y) -> x = y) ->
  NoDup (flat_map f l).
Proof.
  intros ND Hf Hinj. induction ND as [|a l NI ND IH]; simpl; [constructor|].
  apply NoDup_app; auto.
  intros z Za Zl. apply in_flat_map in Zl. destruct Zl as (y & Iy & Zy).
  apply NI. now rewrite (Hinj a y z).
Qed.

Lemma pairsOf_NoDup u : NoDup u -> NoDup (pairsOf u).
Proof.
  intros ND. rewrite pairsOf_by_value.
  apply NoDup_flat_map; [assumption| |].
  - intros a. apply NoDup_flat_map; [assumption| |].
    + intros b. unfold candidate.
      destruct (_ && _); repeat constructor. intros [].
    + intros x y z Hx Hy. apply candidate_In in Hx, Hy.
      destruct Hx as (-> & _), Hy as (E & _). congruence.
  - intros x y z Hx Hy. apply in_flat_map in Hx, Hy.
    destruct Hx as (b & _ & Hx), Hy as (b' & _ & Hy).
    apply candidate_In in Hx, Hy.
    destruct Hx as (-> & _), Hy as (E & _). congruence.
Qed.

(** C5: the pairs reported are exactly the ordered pairs of tag names
    (substring, superstring) where the superstring holds the substring as a
    run of consecutive code units and the two differ; each pair is reported
    once; for foo, foo_bar and baz the report is the single pair
    (foo, foo_bar). *)
Theorem substring_pairs_exact :
  (forall allTags a b,
      In (mkSub a b) (findSubstringTags allTags)
      <-> In a (map t_tag allTags) /\ In b (map t_tag allTags)
          /\ (exists pre post, b = pre ++ a ++ post)
          /\ a <> b)
  /\ (forall allTags, NoDup (findSubstringTags allTags))
  /\ findSubstringTags (tagsOf ["foo"; "foo_bar"; "baz"]%string)
     = [mkSub (lit "foo") (lit "foo_bar")]
  /\ findSubstringTags (tagsOf ["foo_bar"; "baz"; "foo"; "baz"]%string)
     = [mkSub (lit "foo") (lit "foo_bar")].
Proof.
  split; [|split; [|split]].
  - intros allTags a b. unfold findSubstringTags.
    rewrite pairsOf_In. simpl.
    now rewrite !JSFacts.sort_In, !JSFacts.setOf_In, JSFacts.includes_iff.
  - intros allTags. apply pairsOf_NoDup, JSFacts.sort_NoDup,
      JSFacts.setOf_NoDup.
  - vm_compute. reflexivity.
  - vm_compute. reflexivity.
Qed.

(** * Further properties of the validator *)

Lemma opens_app_nested s events m :
  opens s events -> nested m -> opens s (events ++ m).
Proof.
  intros [evs N|s0 evs f body O K N] M.
  - constructor. now apply nested_app.
  - rewrite <- app_assoc. simpl. constructor; auto. now apply nested_app.
Qed.

Lemma opens_snoc_inv frames t events :
  opens (frames ++ [t]) events ->
  exists evs body,
    events = evs ++ t :: body /\ opens frames evs
    /\ type t = START /\ nested body.
Proof.
  intros H. inversion H as [evs N E|s evs f body O K N E]; subst.
  - destruct frames; discriminate E.
  - apply app_inj_tail in E. destruct E as (-> & ->).
    now exists evs, body.
Qed.

(** While no error has been pushed, the stack is what is still open of a
    properly nested text. *)
Lemma clean_run_opens events :
  errors (processEvents initial events) = [] ->
  opens (stack (processEvents initial events)) events.
Proof.
  induction events as [|ev events IH] using rev_ind; intros E.
  - simpl. constructor. constructor.
  - rewrite processEvents_app in *. simpl in *.
    set (st := processEvents initial events) in *.
    rewrite errors_onEvent in E. apply app_eq_nil in E.
    destruct E as (E0 & E1). specialize (IH E0).
    pose proof (errors_onEvent st ev) as EE. rewrite E0, E1 in EE.
    destruct (onEvent_cases st ev)
      as [(K & S & R)|[(K & fs & t & S & R)|[(K & S & R)
         |[(K & fs & t & S & T & R)|(K & fs & t & S & T & R)]]]];
      rewrite R in *; simpl in *.
    + rewrite S in IH. now apply (opens_more (s := [])); [|  |constructor].
    + apply opens_more; [assumption|assumption|constructor].
    + symmetry in EE. now apply app_cons_not_nil in EE.
    + rewrite S in IH.
      apply opens_snoc_inv in IH.
      destruct IH as (evs & body & -> & O & Kt & N).
      rewrite <- app_assoc. apply opens_app_nested; [assumption|].
      now apply (nested_region t ev).
    + rewrite E0 in EE. discriminate.
Qed.

Lemma unclosed_nil s : unclosed s = [] <-> s = [].
Proof. destruct s; simpl; split; congruence. Qed.

(** X1: the validator reports no error exactly on the properly nested
    sequences: a report without errors is the report of a sequence in which
    every Start is closed by an End of its own tag, last opened first
    closed. *)
Theorem clean_report_iff_nested f events :
  events <> [] ->
  ((exists r, analyze f events = Some r /\ r_errors r = [])
   <-> nested events)
  /\ (errors (processEvents initial events) = []
      /\ stack (processEvents initial events) = []
      <-> nested events).
Proof.
  intros Hne.
  assert (Core : errors (processEvents initial events) = []
                 /\ stack (processEvents initial events) = []
                 <-> nested events).
  { split.
    - intros (E & S). pose proof (clean_run_opens events E) as O.
      rewrite S in O. inversion O as [evs N|s evs f0 body _ _ _ E0]; subst.
      + assumption.
      + destruct s; discriminate E0.
    - intros N. destruct (nested_preserves N initial) as (S & E).
      now split. }
  split; [|exact Core].
  rewrite <- Core. unfold analyze.
  destruct events as [|e events]; [contradiction|].
  cbn [length Nat.eqb].
  set (st := processEvents initial (e :: events)).
  split.
  - intros (r & R & Z). injection R as <-. simpl in Z.
    apply app_eq_nil in Z. destruct Z as (Z1 & Z2).
    now apply unclosed_nil in Z2.
  - intros (Z1 & Z2). eexists. split; [reflexivity|]. simpl.
    now rewrite Z1, Z2.
Qed.

Lemma clean_report_iff_nested_witness :
  let a := mkEvent START (lit "a") 1 "f" in
  let a' := mkEvent END (lit "a") 2 "f" in
  nested [a; a'].
Proof.
  intros a a'.
  apply (proj1 (@clean_report_iff_nested "f"%string [a; a'] ltac:(discriminate))).
  eexists. split; reflexivity.
Defined.

(** ** Counting events, frames and errors *)

Lemma startsIn_snoc events ev :
  startsIn (events ++ [ev])
  = startsIn events + match type ev with START => 1 | END => 0 end.
Proof.
  unfold startsIn. rewrite filter_app, length_app. simpl.
  unfold isStart. now destruct (type ev).
Qed.

Lemma endsIn_snoc events ev :
  endsIn (events ++ [ev])
  = endsIn events + match type ev with START => 0 | END => 1 end.
Proof.
  unfold endsIn. rewrite filter_app, length_app. simpl.
  unfold isEnd. now destruct (type ev).
Qed.

Lemma starts_plus_ends events :
  startsIn events + endsIn events = length events.
Proof.
  unfold startsIn, endsIn, isStart, isEnd.
  induction events as [|ev events IH]; simpl; [reflexivity|].
  destruct (type ev); simpl; lia.
Qed.

(** What the loop keeps true after every event. *)
Lemma run_counts events :
  let st := processEvents initial events in
  startsIn events + length (filter isUnmatched (errors st))
  = endsIn events + length (stack st)
  /\ length (errors st) <= endsIn events
  /\ filter isUnclosed (errors st) = []
  /\ length (nestedPairs st) <= pred (startsIn events)
  /\ length (stack st) <= startsIn events.
Proof.
  induction events as [|ev events IH] using rev_ind.
  - simpl. repeat split; auto.
  - cbv zeta in *. rewrite processEvents_app, startsIn_snoc, endsIn_snoc.
    change (processEvents (processEvents initial events) [ev])
      with (onEvent (processEvents initial events) ev).
    set (st := processEvents initial events) in *.
    destruct IH as (B & E & U & P & L).
    destruct (onEvent_cases st ev)
      as [(K & S & R)|[(K & fs & t & S & R)|[(K & S & R)
         |[(K & fs & t & S & T & R)|(K & fs & t & S & T & R)]]]];
      rewrite R, K; simpl; rewrite ?S in *;
      rewrite ?filter_app, ?length_app in *; simpl in *;
      rewrite ?U; repeat split; auto; lia.
Qed.

Lemma filter_unmatched_unclosed s : filter isUnmatched (unclosed s) = [].
Proof. induction s; simpl; auto. Qed.

(** X2: in every report, Starts plus UNMATCHED_END errors equal Ends plus
    UNCLOSED_START errors: each End closes one Start or is reported
    unmatched, each Start is closed by one End or is reported unclosed. *)
Theorem starts_and_ends_balance f events r :
  analyze f events = Some r ->
  startsIn events + length (filter isUnmatched (r_errors r))
  = endsIn events + length (filter isUnclosed (r_errors r)).
Proof.
  unfold analyze. destruct (length events =? 0); [discriminate|].
  intros H. injection H as <-. simpl.
  destruct (run_counts events) as (B & _ & U & _).
  rewrite !filter_app, !length_app, filter_unmatched_unclosed, U,
    filter_unclosed.
  unfold unclosed. rewrite length_map. simpl. lia.
Qed.

Lemma starts_and_ends_balance_witness :
  let evs := [mkEvent END (lit "x") 1 "f"; mkEvent START (lit "a") 2 "f";
              mkEvent START (lit "b") 3 "f"; mkEvent END (lit "c") 4 "f"] in
  exists r, analyze "f" evs = Some r
            /\ 2 + length (filter isUnmatched (r_errors r))
               = 2 + length (filter isUnclosed (r_errors r)).
Proof.
  intros evs. eexists. split; [reflexivity|].
  exact (@starts_and_ends_balance "f"%string evs _ eq_refl).
Defined.

(** X3: a report never has more errors than the file has markers: at most
    one error per End while the events are processed, at most one
    UNCLOSED_START per Start afterwards; and it has fewer pairs than
    Starts. *)
Theorem report_sizes_bounded f events r :
  analyze f events = Some r ->
  length (r_errors r) <= totalTags r
  /\ length (filter isUnmatched (r_errors r))
     + length (filter isMismatched (r_errors r)) <= endsIn events
  /\ length (filter isUnclosed (r_errors r)) <= startsIn events
  /\ length (r_nestedPairs r) <= pred (startsIn events).
Proof.
  unfold analyze. destruct (length events =? 0); [discriminate|].
  intros H. injection H as <-. simpl.
  destruct (run_counts events) as (_ & E & U & P & L).
  set (st := processEvents initial events) in *.
  assert (M : length (filter isUnmatched (errors st))
              + length (filter isMismatched (errors st))
              <= length (errors st)).
  { clear. induction (errors st) as [|e l IH]; simpl; [lia|].
    destruct e; simpl; lia. }
  assert (Z : filter isMismatched (unclosed (stack st)) = [])
    by (clear; induction (stack st); simpl; auto).
  rewrite !filter_app, !length_app, filter_unmatched_unclosed, U, Z,
    filter_unclosed.
  unfold unclosed. rewrite length_map, <- (starts_plus_ends events). simpl.
  repeat split; lia.
Qed.

Lemma report_sizes_bounded_witness :
  let evs := [mkEvent END (lit "x") 1 "f"; mkEvent START (lit "a") 2 "f";
              mkEvent START (lit "b") 3 "f"; mkEvent END (lit "c") 4 "f"] in
  exists r, analyze "f" evs = Some r /\ length (r_errors r) <= 4
            /\ length (r_nestedPairs r) <= 1.
Proof.
  intros evs. eexists. split; [reflexivity|].
  destruct (@report_sizes_bounded "f"%string evs _ eq_refl)
    as (H1 & _ & _ & H4).
  split; [exact H1 | exact H4].
Defined.

(** ** Where the two events of a pair stand *)

Lemma subseq_In {A} (l m : list A) x : subseq l m -> In x l -> In x m.
Proof.
  induction 1 as [|y l m _ IH|y l m _ IH]; simpl; intros H; auto.
  destruct H as [->|H]; auto.
Qed.

Lemma top_In s x : top s = Some x -> In x s.
Proof. unfold top. apply nth_error_In. Qed.

(** Each pair was pushed at its inner Start, its outer being the top frame
    at that moment. *)
Lemma pair_outer events p :
  In p (nestedPairs (processEvents initial events)) ->
  exists pre post,
    events = pre ++ inner p :: post
    /\ top (stack (processEvents initial pre)) = Some (outer p).
Proof.
  induction events as [|ev events IH] using rev_ind; [intros []|].
  rewrite processEvents_app. simpl.
  set (st := processEvents initial events) in *.
  assert (Hold : In p (nestedPairs st) ->
                 exists pre post,
                   events ++ [ev] = pre ++ inner p :: post
                   /\ top (stack (processEvents initial pre))
                      = Some (outer p)).
  { intros H. destruct (IH H) as (pre & post & -> & T).
    exists pre, (post ++ [ev]). now rewrite <- app_assoc. }
  destruct (onEvent_cases st ev)
    as [(K & S & ->)|[(K & fs & t & S & ->)|[(K & S & ->)
       |[(K & fs & t & S & _ & ->)|(K & fs & t & S & _ & ->)]]]];
    simpl; auto.
  intros H. apply in_app_or in H. destruct H as [H|[<-|[]]]; [auto|].
  exists events, []. simpl. split; [reflexivity|].
  fold st. rewrite S. apply top_snoc.
Qed.

Lemma sorted_before {A} (R : A -> A -> Prop) l1 a l2 x :
  StronglySorted R (l1 ++ a :: l2) -> In x l1 -> R x a.
Proof.
  induction l1 as [|y l1 IH]; simpl; intros H I; [destruct I|].
  apply StronglySorted_inv in H. destruct H as (H & F).
  destruct I as [->|I]; [|now apply IH].
  rewrite Forall_forall in F. apply F, in_or_app. right. now left.
Qed.

Lemma tokenize_file f content e : In e (tokenize f content) -> file e = f.
Proof.
  intros H. apply eventsFrom_in in H. destruct H as (i & ln & _ & H).
  unfold lineEvents in H. apply in_app_or in H.
  destruct H as [H|H]; apply in_map_iff in H;
    destruct H as (m & <- & _); reflexivity.
Qed.

(** X4: in every pair reported for a file, outer and inner are Start events
    of that file, the outer one stands before the inner one in the event
    sequence and on the same or an earlier line, and the depth is at least
    2. *)
Theorem pair_outer_opens_before_inner fs f r p :
  findNestedTags fs f = Some r -> In p (r_nestedPairs r) ->
  type (outer p) = START /\ type (inner p) = START
  /\ file (outer p) = f /\ file (inner p) = f
  /\ line (outer p) <= line (inner p)
  /\ 2 <= depth p
  /\ exists pre post,
      parseTagEvents fs f = pre ++ inner p :: post /\ In (outer p) pre.
Proof.
  unfold findNestedTags, analyze.
  set (events := parseTagEvents fs f).
  destruct (length events =? 0); [discriminate|].
  intros H I. injection H as <-. simpl in I.
  destruct (pair_origin events p I) as (pre' & post' & E' & Ki & _ & D).
  destruct (pair_outer events p I) as (pre & post & E & T).
  apply top_In in T.
  destruct (@stack_invariant pre initial [])
    as (Sub & St); [constructor|constructor|]. simpl in Sub.
  assert (Io : In (outer p) pre) by (eapply subseq_In; eauto).
  assert (Ko : type (outer p) = START)
    by (rewrite Forall_forall in St; now apply St).
  assert (Sorted : StronglySorted le (map line events)).
  { unfold events, parseTagEvents. destruct (fs f); [|constructor].
    apply eventsFrom_sorted. }
  assert (File : forall e, In e events -> file e = f).
  { unfold events, parseTagEvents. destruct (fs f); [|intros ? []].
    intros e. apply tokenize_file. }
  repeat split; auto.
  - apply File. rewrite E. apply in_or_app. now left.
  - apply File. rewrite E. apply in_or_app. right. now left.
  - rewrite E, map_app in Sorted. simpl in Sorted.
    apply (sorted_before _ _ _ (line (outer p)) Sorted).
    now apply in_map.
  - now exists pre, post.
Qed.

Lemma pair_outer_opens_before_inner_witness :
  let fs := oneFile
              (text ["[START a]"; "[START b] [END b]"; "[END a]"]%string) in
  let p := mkPair (mkEvent START (lit "a") 1 "f")
                  (mkEvent START (lit "b") 2 "f") 2 in
  line (outer p) <= line (inner p) /\ 2 <= depth p.
Proof.
  intros fs p.
  destruct (@pair_outer_opens_before_inner fs "f"%string
              (mkReport "f" [p] [] 4) p eq_refl (or_introl eq_refl))
    as (_ & _ & _ & _ & L & D & _).
  split; [exact L | exact D].
Defined.

(** ** The accumulation of [main] over the file list *)

Section ScanFacts.

Variable fs : filesystem.
Variable relative : path -> path.

Lemma scan_acc files :
  forall acc,
    let r := fold_left (scanFile fs relative) files acc in
    let s := scan fs relative files in
    allNested r = allNested acc ++ allNested s
    /\ allErrors r = allErrors acc ++ allErrors s
    /\ filesWithTags r = filesWithTags acc + filesWithTags s.
Proof.
  unfold scan.
  induction files as [|f files IH]; intros acc; simpl.
  - rewrite !app_nil_r. auto.
  - destruct (IH (scanFile fs relative acc f)) as (N1 & E1 & C1).
    destruct (IH (scanFile fs relative (mkTotals [] [] 0) f))
      as (N2 & E2 & C2).
    rewrite N1, E1, C1, N2, E2, C2. unfold scanFile.
    destruct (findNestedTags fs f) as [r|]; simpl.
    + destruct (0 <? totalTags r); simpl;
        rewrite ?app_nil_r, ?app_assoc; repeat split; auto; lia.
    + rewrite ?app_nil_r. repeat split; auto.
Qed.

End ScanFacts.

(** X5: the totals of [main] over a list of files are the totals of its
    parts put together: pairs and errors are appended in file order, the
    counts of files with tags add up; the count is the number of files that
    yield at least one event. *)
Theorem scan_of_concatenation fs relative l1 l2 :
  let s := scan fs relative in
  allNested (s (l1 ++ l2)) = allNested (s l1) ++ allNested (s l2)
  /\ allErrors (s (l1 ++ l2)) = allErrors (s l1) ++ allErrors (s l2)
  /\ filesWithTags (s (l1 ++ l2))
     = filesWithTags (s l1) + filesWithTags (s l2)
  /\ filesWithTags (s l1)
     = length (filter (fun f => 0 <? length (parseTagEvents fs f)) l1).
Proof.
  cbv zeta. split; [|split; [|split]].
  1-3: unfold scan at 1; rewrite fold_left_app;
    apply (scan_acc fs relative l2 (scan fs relative l1)).
  induction l1 as [|f l1 IH]; [reflexivity|].
  change (f :: l1) with ([f] ++ l1).
  unfold scan at 1. rewrite fold_left_app.
  destruct (scan_acc fs relative l1
              (fold_left (scanFile fs relative) [f] (mkTotals [] [] 0)))
    as (_ & _ & ->).
  rewrite IH. simpl. unfold scanFile, findNestedTags, analyze.
  destruct (parseTagEvents fs f) as [|e evs]; reflexivity.
Qed.

(** * Further properties of the tokenizer *)

Lemma split_length sep s :
  length (split sep s) = S (count_occ N.eq_dec s sep).
Proof.
  induction s as [|c s IH]; [reflexivity|].
  simpl. destruct (N.eqb_spec c sep) as [E|E];
    destruct (N.eq_dec c sep) as [E'|E']; try contradiction; simpl.
  - now rewrite IH.
  - destruct (split sep s); simpl in *; lia.
Qed.

(** X6: every event of a readable file carries that file's path and a line
    number between 1 and the number of lines, which is one more than the
    number of newlines in the content. *)
Theorem event_line_in_range fs f content e :
  fs f = Some content -> In e (parseTagEvents fs f) ->
  file e = f
  /\ 1 <= line e <= S (count_occ N.eq_dec content newline).
Proof.
  unfold parseTagEvents. intros -> H. split; [now apply tokenize_file in H|].
  unfold tokenize in H. apply eventsFrom_in in H.
  destruct H as (i & ln & N & I). apply lineEvents_line in I.
  assert (L : i < length (split newline content))
    by (apply nth_error_Some; congruence).
  rewrite split_length in L. simpl in I. lia.
Qed.

Lemma event_line_in_range_witness :
  let e := mkEvent END (lit "a") 2 "f" in
  1 <= line e <= 3.
Proof.
  intros e.
  apply (@event_line_in_range
           (oneFile (text ["[START a]"; "x [END a]"; ""]%string))
           "f"%string _ e eq_refl).
  vm_compute. right. now left.
Defined.

(** ** What [trim] leaves *)

Lemma trimStart_head s c :
  hd_error (trimStart s) = Some c -> isWhiteSpace c = false.
Proof.
  induction s as [|a s IH]; simpl; [discriminate|].
  destruct (isWhiteSpace a) eqn:W; [assumption|].
  simpl. intros H. now injection H as <-.
Qed.

Lemma trimStart_snoc l c :
  isWhiteSpace c = false -> trimStart (l ++ [c]) = trimStart l ++ [c].
Proof.
  intros W. induction l as [|a l IH]; simpl; [now rewrite W|].
  now destruct (isWhiteSpace a).
Qed.

Lemma trimStart_In s x : In x (trimStart s) -> In x s.
Proof.
  destruct (trimStart_suffix s) as (ws & _ & E). intros H.
  rewrite E. apply in_or_app. now right.
Qed.

Lemma trim_In s x : In x (trim s) -> In x s.
Proof.
  unfold trim, trimEnd. intros H.
  apply in_rev, trimStart_In, in_rev, trimStart_In in H. exact H.
Qed.

Lemma trim_noEdgeSpace s : noEdgeSpace (trim s).
Proof.
  unfold noEdgeSpace, trim, trimEnd. intros c [H|H].
  - destruct (trimStart s) as [|a u] eqn:U; [discriminate|].
    assert (W : isWhiteSpace a = false)
      by (apply (trimStart_head s); now rewrite U).
    simpl in H. rewrite trimStart_snoc, rev_app_distr in H by assumption.
    simpl in H. now injection H as <-.
  - rewrite rev_involutive in H. now apply trimStart_head in H.
Qed.

Lemma skipn_In {A} n (l : list A) x : In x (skipn n l) -> In x l.
Proof.
  intros H. rewrite <- (firstn_skipn n l). apply in_or_app. now right.
Qed.

(** X7: a tag produced by the tokenizer holds no closing bracket and no
    newline, and neither starts nor ends with whitespace. *)
Theorem tag_has_no_bracket_newline_or_edge_space f content e :
  In e (tokenize f content) ->
  ~ In rbracket (tag e) /\ ~ In newline (tag e) /\ noEdgeSpace (tag e).
Proof.
  intros H. unfold tokenize in H.
  destruct (eventsFrom_in _ _ _ _ H) as (i & ln & N & I).
  assert (G : exists k idx cap,
             In (idx, cap) (Regex.execAll (Regex.marker (keyword k)) 0 0 ln)
             /\ tag e = trim cap).
  { unfold lineEvents in I. apply in_app_or in I.
    destruct I as [I|I]; apply in_map_iff in I;
      destruct I as ([idx cap] & <- & I);
      [exists START|exists END]; exists idx, cap; now split. }
  destruct G as (k & idx & cap & M & ->).
  destruct (RegexFacts.execAll_matches _ _ _ _ _ _ M) as (_ & rest & R).
  rewrite Nat.sub_0_r in R.
  destruct (RegexFacts.marker_some _ _ R) as (ws & E & _ & _ & _ & F).
  split; [|split].
  - intros B. apply trim_In in B. rewrite Forall_forall in F.
    now apply (F rbracket).
  - intros B. apply trim_In in B.
    apply (@split_no_sep newline content ln).
    + eapply nth_error_In; eauto.
    + apply (skipn_In idx). rewrite E.
      apply in_or_app; right. apply in_or_app; right.
      apply in_or_app; right. apply in_or_app; now left.
  - apply trim_noEdgeSpace.
Qed.

Lemma tag_has_no_bracket_newline_or_edge_space_witness :
  noEdgeSpace (lit "a b").
Proof.
  apply (@tag_has_no_bracket_newline_or_edge_space "f"
           (lit "x [END  a b ]") (mkEvent END (lit "a b") 1 "f")).
  vm_compute. now left.
Defined.

(** ** Putting two texts together *)

Lemma split_app sep a b :
  split sep (a ++ sep :: b) = split sep a ++ split sep b.
Proof.
  induction a as [|c a IH]; simpl.
  - now rewrite N.eqb_refl.
  - destruct (c =? sep)%N; rewrite IH; [reflexivity|].
    destruct (split sep a) eqn:S; [|reflexivity].
    pose proof (split_length sep a) as L. rewrite S in L. discriminate.
Qed.

Lemma lineEvents_shift f k n ln :
  lineEvents f (k + n) ln = map (shiftLine n) (lineEvents f k ln).
Proof.
  unfold lineEvents. rewrite map_app, !map_map. unfold shiftLine. simpl.
  now replace (k + n + 1) with (k + 1 + n) by lia.
Qed.

Lemma eventsFrom_shift f n lines :
  forall k, eventsFrom f (k + n) lines
            = map (shiftLine n) (eventsFrom f k lines).
Proof.
  induction lines as [|ln lines IH]; intros k; simpl; [reflexivity|].
  rewrite map_app, lineEvents_shift. f_equal. apply (IH (S k)).
Qed.

Lemma eventsFrom_app f l1 l2 :
  forall k, eventsFrom f k (l1 ++ l2)
            = eventsFrom f k l1 ++ eventsFrom f (k + length l1) l2.
Proof.
  induction l1 as [|ln l1 IH]; intros k; simpl.
  - now rewrite Nat.add_0_r.
  - rewrite <- app_assoc, IH. do 3 f_equal. lia.
Qed.

(** X8: the events of two texts joined by a newline are the events of the
    first followed by the events of the second, moved down by the number of
    lines of the first. *)
Theorem tokenize_joined_texts f a b :
  tokenize f (a ++ newline :: b)
  = tokenize f a
      ++ map (shiftLine (length (split newline a))) (tokenize f b).
Proof.
  unfold tokenize. rewrite split_app, eventsFrom_app.
  f_equal. apply (eventsFrom_shift f (length (split newline a)) _ 0).
Qed.

(** ** A well-formed marker is found *)

Module MarkerFound.
Import Regex.

(** A greedy [c+] in front of a unit that is not of the class takes the
    whole run when its continuation accepts. *)
Lemma mPlus_greedy {A} p (k : jsstring -> cont A) rest r taken :
  forall acc,
    taken <> [] -> Forall (fun c => p c = true) taken ->
    (forall c, hd_error rest = Some c -> p c = false) ->
    k (acc ++ taken) rest = Some r ->
    mPlus p k acc (taken ++ rest) = Some r.
Proof.
  induction taken as [|c t IH]; intros acc N F H K; [contradiction|].
  inversion F as [|? ? Pc Ft]; subst. simpl. rewrite Pc.
  destruct t as [|d t].
  - simpl in *. destruct rest as [|x rest]; simpl; [exact K|].
    rewrite (H x eq_refl). exact K.
  - rewrite (IH (acc ++ [c])); auto; [discriminate|].
    now rewrite <- app_assoc.
Qed.

Lemma marker_complete kw ws cap rest :
  ws <> [] -> allWhiteSpace ws ->
  cap <> [] -> ~ In rbracket cap ->
  (forall c, hd_error cap = Some c -> isWhiteSpace c = false) ->
  marker kw (lit "[" ++ kw ++ ws ++ cap ++ rbracket :: rest)
  = Some (cap, rest).
Proof.
  intros Nw Fw Nc Fc Hc. unfold marker, mLit at 1.
  rewrite app_assoc.
  assert (P : startsWith ((lit "[" ++ kw) ++ ws ++ cap ++ rbracket :: rest)
                         (lit "[" ++ kw) = true)
    by (apply JSFacts.startsWith_iff; eauto).
  rewrite P, skipn_app, skipn_all, Nat.sub_diag. simpl skipn.
  apply mPlus_greedy with (taken := ws); [exact Nw|exact Fw| |].
  - intros c H. apply Hc. destruct cap; [contradiction|exact H].
  - apply mPlus_greedy with (taken := cap); [exact Nc| | |].
    + apply Forall_forall. intros c I. unfold notRBracket.
      apply negb_true_iff, N.eqb_neq. intros ->. contradiction.
    + intros c H. injection H as <-. reflexivity.
    + reflexivity.
Qed.

Lemma marker_needs_bracket kw c s : c <> lbracket -> marker kw (c :: s) = None.
Proof.
  intros N. destruct (marker kw (c :: s)) as [[cap rest]|] eqn:M;
    [|reflexivity].
  destruct (RegexFacts.marker_some _ _ M) as (ws & E & _).
  injection E as -> _. contradiction.
Qed.

Lemma execAll_skip_prefix kw pre s :
  ~ In lbracket pre ->
  forall idx,
    execAll (marker kw) 0 idx (pre ++ s)
    = execAll (marker kw) 0 (idx + length pre) s.
Proof.
  induction pre as [|c pre IH]; intros H idx; simpl.
  - now rewrite Nat.add_0_r.
  - rewrite marker_needs_bracket by (intros ->; apply H; now left).
    rewrite IH by (intros I; apply H; now right). f_equal. lia.
Qed.

Lemma execAll_skip_count re x s :
  forall idx,
    execAll re (length x) idx (x ++ s) = execAll re 0 (idx + length x) s.
Proof.
  induction x as [|c x IH]; intros idx; simpl.
  - now rewrite Nat.add_0_r.
  - rewrite IH. f_equal. lia.
Qed.

Lemma execAll_at_match re c body post cap idx :
  re (c :: body ++ post) = Some (cap, post) ->
  execAll re 0 idx (c :: body ++ post)
  = (idx, cap) :: execAll re 0 (S idx + length body) post.
Proof.
  intros H. cbn [execAll]. rewrite H. f_equal.
  replace (length (c :: body ++ post) - length post - 1)
    with (length body) by (cbn [length]; rewrite length_app; lia).
  apply execAll_skip_count.
Qed.

(** The loop over a line with one marker of its own keyword. *)
Lemma execAll_one kw pre ws cap post :
  ~ In lbracket pre -> ~ In lbracket post ->
  ws <> [] -> allWhiteSpace ws ->
  cap <> [] -> ~ In rbracket cap ->
  (forall c, hd_error cap = Some c -> isWhiteSpace c = false) ->
  execAll (marker kw) 0 0
          (pre ++ lit "[" ++ kw ++ ws ++ cap ++ rbracket :: post)
  = [(length pre, cap)].
Proof.
  intros Hpre Hpost Nw Fw Nc Fc Hc.
  rewrite execAll_skip_prefix by assumption.
  pose proof (marker_complete kw post Nw Fw Nc Fc Hc) as M.
  replace (lit "[" ++ kw ++ ws ++ cap ++ rbracket :: post)
    with (91%N :: (kw ++ ws ++ cap ++ [rbracket]) ++ post) in *
    by (simpl; now rewrite <- !app_assoc).
  rewrite (@execAll_at_match _ _ _ _ _ _ M). f_equal.
  now apply RegexFacts.execAll_no_bracket.
Qed.

(** The loop of the other keyword over the same line. *)
Lemma execAll_other k line :
  (exists pre rest,
      line = pre ++ lit "[" ++ keyword k ++ rest
      /\ ~ In lbracket pre /\ ~ In lbracket rest) ->
  execAll (marker (keyword (match k with START => END | END => START end)))
          0 0 line = [].
Proof.
  intros (pre & rest & -> & Hpre & Hrest).
  rewrite execAll_skip_prefix by assumption.
  assert (Hk : ~ In lbracket (keyword k ++ rest)).
  { intros I. apply in_app_or in I. destruct I as [I|I]; [|contradiction].
    destruct k; simpl in I; unfold lbracket in I;
      repeat (destruct I as [I|I]; [discriminate|]); exact I. }
  destruct k; simpl;
    (rewrite RegexFacts.execAll_no_bracket; [reflexivity|]);
    assumption.
Qed.

End MarkerFound.

(** X9: a line with one well-formed marker -- the keyword, whitespace, a
    name that starts with a non-blank unit and has no bracket, the closing
    bracket -- and no other opening bracket yields exactly one event: of
    that kind, with the trimmed name as tag. *)
Theorem lone_marker_is_found f i k pre ws name post :
  ~ In lbracket pre -> ~ In lbracket post ->
  ws <> [] -> allWhiteSpace ws ->
  name <> [] -> ~ In rbracket name -> ~ In lbracket name ->
  (forall c, hd_error name = Some c -> isWhiteSpace c = false) ->
  lineEvents f i (pre ++ lit "[" ++ keyword k ++ ws ++ name ++ rbracket :: post)
  = [mkEvent k (trim name) (i + 1) f].
Proof.
  intros Hpre Hpost Nw Fw Nn Fr Fl Hn. unfold lineEvents.
  assert (Own : Regex.execAll (Regex.marker (keyword k)) 0 0
                  (pre ++ lit "[" ++ keyword k ++ ws ++ name
                       ++ rbracket :: post)
                = [(length pre, name)])
    by now apply MarkerFound.execAll_one.
  assert (Other : Regex.execAll
                    (Regex.marker
                       (keyword (match k with START => END | END => START end)))
                    0 0
                    (pre ++ lit "[" ++ keyword k ++ ws ++ name
                         ++ rbracket :: post)
                  = []).
  { apply MarkerFound.execAll_other.
    exists pre, (ws ++ name ++ rbracket :: post). repeat split; auto.
    intros I. apply in_app_or in I. destruct I as [I|I].
    - unfold allWhiteSpace in Fw. rewrite Forall_forall in Fw.
      apply Fw in I. discriminate.
    - apply in_app_or in I. destruct I as [I|[I|I]]; auto. discriminate. }
  destruct k; unfold startRegex, endRegex;
    change (lit "START") with (keyword START);
    change (lit "END") with (keyword END);
    rewrite Own, Other; reflexivity.
Qed.

Lemma lone_marker_is_found_witness :
  lineEvents "f" 6 (lit "    // [START android_wear_tile ] code")
  = [mkEvent START (lit "android_wear_tile") 7 "f"].
Proof.
  apply (@lone_marker_is_found "f" 6 START (lit "    // ") (lit " ")
           (lit "android_wear_tile ") (lit " code"));
    try discriminate;
    try (intros I; vm_compute in I; intuition discriminate).
  - repeat constructor.
  - intros c H. injection H as <-. reflexivity.
Defined.

(** * Further properties of the substring script *)

Lemma execAllFull_execAll re s :
  forall skip idx,
    map (fun m => (fst (fst m), snd m)) (execAllFull re skip idx s)
    = Regex.execAll re skip idx s.
Proof.
  induction s as [|c s IH]; intros skip idx; [reflexivity|].
  cbn [execAllFull Regex.execAll]. destruct skip as [|n]; [|apply IH].
  destruct (re (c :: s)) as [[cap rest]|]; [|apply IH].
  cbn [map fst snd]. f_equal. apply IH.
Qed.

Lemma execAllFull_matches re s :
  forall skip idx i full cap,
    In (i, full, cap) (execAllFull re skip idx s) ->
    idx <= i
    /\ exists rest,
        re (skipn (i - idx) s) = Some (cap, rest)
        /\ full = firstn (length (skipn (i - idx) s) - length rest)
                         (skipn (i - idx) s).
Proof.
  induction s as [|c s IH]; intros skip idx i full cap H; [destruct H|].
  cbn [execAllFull] in H.
  assert (Next : forall k, In (i, full, cap) (execAllFull re k (S idx) s) ->
                           idx <= i
                           /\ exists rest,
                               re (skipn (i - idx) (c :: s)) = Some (cap, rest)
                               /\ full
                                  = firstn
                                      (length (skipn (i - idx) (c :: s))
                                       - length rest)
                                      (skipn (i - idx) (c :: s))).
  { intros k Hk. destruct (IH _ _ _ _ _ Hk) as (L & rest & R & F).
    split; [lia|]. exists rest.
    replace (i - idx) with (S (i - S idx)) by lia. now split. }
  destruct skip as [|n]; [|eauto].
  destruct (re (c :: s)) as [[cap0 rest0]|] eqn:R; [|eauto].
  destruct H as [H|H]; [|eauto].
  injection H as <- <- <-. split; [lia|].
  exists rest0. now rewrite Nat.sub_diag.
Qed.

Lemma firstn_app_exact {A} (l m : list A) :
  firstn (length (l ++ m) - length m) (l ++ m) = l.
Proof.
  rewrite length_app, Nat.add_sub.
  rewrite firstn_app, Nat.sub_diag, firstn_all. simpl. apply app_nil_r.
Qed.

(** X10: every entry that [extractStartTags] returns for a file stems from
    a place of the content where [[START], whitespace, a bracket-free
    non-empty text and the closing bracket stand; [fullMatch] is that run of
    the content, the tag is the text trimmed, with no closing bracket and no
    whitespace at either end, and the entry names the file. *)
Theorem extracted_tag_is_a_marker fs f t :
  In t (extractStartTags fs f) ->
  exists content i ws cap rest,
    fs f = Some content
    /\ skipn i content = fullMatch t ++ rest
    /\ fullMatch t = lit "[START" ++ ws ++ cap ++ [rbracket]
    /\ ws <> [] /\ allWhiteSpace ws /\ cap <> []
    /\ t_tag t = trim (ws ++ cap)
    /\ t_file t = f
    /\ ~ In rbracket (t_tag t) /\ noEdgeSpace (t_tag t).
Proof.
  unfold extractStartTags. destruct (fs f) as [content|]; [|intros []].
  intros H. apply in_map_iff in H. destruct H as ([[i full] cap] & <- & H).
  simpl. apply execAllFull_matches in H.
  destruct H as (_ & rest & R & F). rewrite Nat.sub_0_r in *.
  destruct (RegexFacts.marker_some _ _ R) as (ws & E & N1 & F1 & N2 & F2).
  assert (E' : skipn i content
               = (lit "[START" ++ ws ++ cap ++ [rbracket]) ++ rest)
    by (rewrite E; simpl; now rewrite <- !app_assoc).
  rewrite E' in F. rewrite firstn_app_exact in F. subst full.
  exists content, i, ws, cap, rest. repeat split; auto.
  - symmetry. now apply trim_skips.
  - intros B. apply trim_In in B. rewrite Forall_forall in F2.
    now apply (F2 rbracket).
  - apply trim_noEdgeSpace.
Qed.

Lemma extracted_tag_is_a_marker_witness :
  exists content i ws cap rest,
    oneFile (text ["// [START  a"; "b ] x"]%string) "f"%string = Some content
    /\ skipn i content = (lit "[START  a" ++ newline :: lit "b ]") ++ rest
    /\ lit "a" ++ newline :: lit "b" = trim (ws ++ cap).
Proof.
  destruct (@extracted_tag_is_a_marker
              (oneFile (text ["// [START  a"; "b ] x"]%string)) "f"%string
              (mkTag (lit "a" ++ newline :: lit "b") "f"
                     (lit "[START  a" ++ newline :: lit "b ]")))
    as (content & i & ws & cap & rest & H1 & H2 & _ & _ & _ & _ & H3 & _).
  - vm_compute. now left.
  - exists content, i, ws, cap, rest. repeat split; assumption.
Defined.

Lemma split_one sep s : ~ In sep s -> split sep s = [s].
Proof.
  induction s as [|c s IH]; intros H; [reflexivity|]. simpl.
  destruct (N.eqb_spec c sep) as [E|E]; [exfalso; apply H; now left|].
  rewrite IH; [reflexivity|]. intros I. apply H. now right.
Qed.

(** X11: on a content without newline the two scripts read the same Start
    tags, in the same order. *)
Theorem one_line_scripts_agree fs f content :
  fs f = Some content -> ~ In newline content ->
  map t_tag (extractStartTags fs f)
  = map tag (filter isStart (parseTagEvents fs f)).
Proof.
  intros E H. unfold extractStartTags, parseTagEvents, tokenize.
  rewrite E, (@split_one newline content H). simpl. rewrite app_nil_r.
  unfold lineEvents. rewrite filter_app.
  rewrite filter_all, filter_none, app_nil_r.
  - rewrite !map_map. simpl.
    rewrite <- (execAllFull_execAll startRegex content 0 0).
    rewrite map_map. reflexivity.
  - intros e I. apply in_map_iff in I. now destruct I as (m & <- & _).
  - intros e I. apply in_map_iff in I. now destruct I as (m & <- & _).
Qed.

Lemma one_line_scripts_agree_witness :
  map t_tag (extractStartTags
               (oneFile (lit "[START a] [END a] [START  b c ]")) "f")
  = [lit "a"; lit "b c"].
Proof.
  rewrite (@one_line_scripts_agree _ _
             (lit "[START a] [END a] [START  b c ]") eq_refl).
  - reflexivity.
  - intros I. vm_compute in I. intuition discriminate.
Defined.

(** ** The reported pairs as a relation on tag names *)

Lemma findSubstringTags_In allTags p :
  In p (findSubstringTags allTags)
  <-> In (substring p) (map t_tag allTags)
      /\ In (superstring p) (map t_tag allTags)
      /\ includes (superstring p) (substring p) = true
      /\ substring p <> superstring p.
Proof.
  unfold findSubstringTags. rewrite pairsOf_In.
  now rewrite !JSFacts.sort_In, !JSFacts.setOf_In.
Qed.

Lemma includes_shorter b a :
  includes b a = true -> a <> b -> length a < length b.
Proof.
  intros I D. apply JSFacts.includes_iff in I.
  destruct I as (pre & post & ->). rewrite !length_app.
  destruct pre as [|x pre]; [|simpl; lia].
  destruct post as [|y post]; [|simpl; lia].
  exfalso. apply D. simpl. now rewrite app_nil_r.
Qed.

Lemma includes_trans c b a :
  includes c b = true -> includes b a = true -> includes c a = true.
Proof.
  rewrite !JSFacts.includes_iff.
  intros (pre2 & post2 & ->) (pre1 & post1 & ->).
  exists (pre2 ++ pre1), (post1 ++ post2). now rewrite <- !app_assoc.
Qed.

(** X12: the pairs reported form a strict partial order on the tag names:
    the substring is strictly shorter than the superstring, so no tag is
    paired with itself and no pair is reported both ways round, and with
    (a, b) and (b, c) the pair (a, c) is reported too. *)
Theorem reported_pairs_strict_order allTags :
  let R a b := In (mkSub a b) (findSubstringTags allTags) in
  (forall a b, R a b -> length a < length b)
  /\ (forall a, ~ R a a)
  /\ (forall a b, R a b -> ~ R b a)
  /\ (forall a b c, R a b -> R b c -> R a c).
Proof.
  cbv zeta.
  assert (L : forall a b, In (mkSub a b) (findSubstringTags allTags) ->
                          length a < length b).
  { intros a b H. apply findSubstringTags_In in H. simpl in H.
    destruct H as (_ & _ & I & D). now apply includes_shorter. }
  split; [exact L|]. split; [|split].
  - intros a H. apply L in H. lia.
  - intros a b H1 H2. apply L in H1, H2. lia.
  - intros a b c H1 H2. pose proof (L _ _ H1). pose proof (L _ _ H2).
    apply findSubstringTags_In in H1, H2. simpl in *.
    destruct H1 as (Ia & _ & I1 & _), H2 as (_ & Ic & I2 & _).
    apply findSubstringTags_In. simpl. repeat split; auto.
    + eapply includes_trans; eauto.
    + intros ->. lia.
Qed.

Lemma reported_pairs_strict_order_witness :
  In (mkSub (lit "a") (lit "a_b_c"))
     (findSubstringTags (tagsOf ["a_b_c"; "a"; "a_b"; "zz"]%string)).
Proof.
  apply (proj2 (proj2 (proj2 (reported_pairs_strict_order
                                (tagsOf ["a_b_c"; "a"; "a_b"; "zz"]%string))))
           (lit "a") (lit "a_b") (lit "a_b_c"));
    vm_compute; tauto.
Defined.

(** X13: an empty tag name, once collected, is reported as a substring of
    every other tag name. *)
Theorem empty_tag_pairs_with_every_tag allTags b :
  In [] (map t_tag allTags) -> In b (map t_tag allTags) -> b <> [] ->
  In (mkSub [] b) (findSubstringTags allTags).
Proof.
  intros H0 Hb N. apply findSubstringTags_In. simpl.
  split; [assumption|]. split; [assumption|]. split.
  - apply JSFacts.includes_iff. now exists [], b.
  - congruence.
Qed.

Lemma empty_tag_pairs_with_every_tag_witness :
  In (mkSub [] (lit "foo"))
     (findSubstringTags
        (extractStartTags (oneFile (lit "[START foo] [START  ]")) "f")).
Proof.
  apply empty_tag_pairs_with_every_tag.
  - vm_compute. tauto.
  - vm_compute. tauto.
  - discriminate.
Defined.

(** ** Where the reported tags come from *)

Lemma getTagLocations_In allTags tg f :
  In f (getTagLocations allTags tg)
  <-> exists t, In t allTags /\ t_tag t = tg /\ t_file t = f.
Proof.
  unfold getTagLocations. rewrite in_map_iff. split.
  - intros (t & F & I). apply filter_In in I. destruct I as (I & E).
    apply JSFacts.eqb_eq in E. now exists t.
  - intros (t & I & E & F). exists t. split; [assumption|].
    apply filter_In. split; [assumption|]. now apply JSFacts.eqb_eq.
Qed.

Lemma collected_tag_located fs files tg :
  In tg (map t_tag (collectTags fs files)) ->
  exists f, In f files /\ fs f <> None
            /\ In f (getTagLocations (collectTags fs files) tg).
Proof.
  intros H. apply in_map_iff in H. destruct H as (t & E & I).
  pose proof I as I'. unfold collectTags in I'. apply in_flat_map in I'.
  destruct I' as (f & If & It). exists f. split; [assumption|].
  unfold extractStartTags in It.
  destruct (fs f) as [content|] eqn:F; [|destruct It].
  split; [discriminate|]. apply getTagLocations_In. exists t.
  repeat split; auto.
  apply in_map_iff in It. now destruct It as (m & <- & _).
Qed.

(** X14: both tags of every pair that [main] reports were read from a file
    of the scan that could be read, and [getTagLocations] lists such a file
    for each of them; the locations of a tag are the files of the entries
    with that tag, one per occurrence. *)
Theorem reported_tags_have_locations fs files :
  let allTags := collectTags fs files in
  (forall p,
      In p (findSubstringTags allTags) ->
      (exists f, In f files /\ fs f <> None
                 /\ In f (getTagLocations allTags (substring p)))
      /\ (exists f, In f files /\ fs f <> None
                    /\ In f (getTagLocations allTags (superstring p))))
  /\ (forall tg,
         length (getTagLocations allTags tg)
         = count_occ (list_eq_dec N.eq_dec) (map t_tag allTags) tg).
Proof.
  cbv zeta. split.
  - intros p H. apply findSubstringTags_In in H.
    destruct H as (Ha & Hb & _).
    split; now apply collected_tag_located.
  - intros tg. unfold getTagLocations. rewrite length_map.
    induction (collectTags fs files) as [|t l IH]; [reflexivity|].
    simpl. unfold JS.eqb at 1.
    destruct (list_eq_dec N.eq_dec (t_tag t) tg); simpl; now rewrite IH.
Qed.

Lemma reported_tags_have_locations_witness :
  let fs := fun p : path =>
              if String.eqb p "a.kt" then Some (lit "[START foo]")
              else if String.eqb p "b.kt" then Some (lit "[START foo_bar]")
              else None in
  exists f, In f ["a.kt"; "gone"; "b.kt"]%string
            /\ In f (getTagLocations
                       (collectTags fs ["a.kt"; "gone"; "b.kt"]%string)
                       (lit "foo")).
Proof.
  intros fs.
  destruct (proj1 (reported_tags_have_locations
                     fs ["a.kt"; "gone"; "b.kt"]%string)
              (mkSub (lit "foo") (lit "foo_bar")))
    as ((f & I & _ & L) & _).
  - vm_compute. tauto.
  - exists f. split; [exact I | exact L].
Defined.

(** ** The order of [sort] *)

Module OrderFacts.

Lemma leb_antisym a : forall b, JS.leb a b = true -> JS.leb b a = true -> a = b.
Proof.
  induction a as [|x a IH]; intros [|y b]; simpl; try easy.
  destruct (N.ltb_spec x y) as [L1|L1]; destruct (N.ltb_spec y x) as [L2|L2];
    try discriminate; try lia.
  intros H1 H2. assert (x = y) by lia. subst. f_equal. now apply IH.
Qed.

Lemma leb_trans a :
  forall b c, JS.leb a b = true -> JS.leb b c = true -> JS.leb a c = true.
Proof.
  induction a as [|x a IH]; intros [|y b] [|z c]; simpl; try easy.
  destruct (N.ltb_spec x y) as [L1|L1]; destruct (N.ltb_spec y x) as [L2|L2];
    destruct (N.ltb_spec y z) as [L3|L3]; destruct (N.ltb_spec z y) as [L4|L4];
    destruct (N.ltb_spec x z) as [L5|L5]; destruct (N.ltb_spec z x) as [L6|L6];
    try discriminate; try lia; auto.
  apply IH.
Qed.

Lemma sort_strongly_sorted l : StronglySorted lePair (JS.sort l).
Proof.
  apply Sorted_StronglySorted.
  - intros a b c. apply leb_trans.
  - apply Sorted_LocallySorted_iff, JSFacts.sort_sorted.
Qed.

(** A duplicate-free sorted list is determined by its elements. *)
Lemma sorted_unique l1 :
  forall l2,
    StronglySorted lePair l1 -> StronglySorted lePair l2 ->
    NoDup l1 -> NoDup l2 ->
    (forall x, In x l1 <-> In x l2) -> l1 = l2.
Proof.
  induction l1 as [|a l1 IH]; intros [|b l2] S1 S2 N1 N2 H.
  - reflexivity.
  - exfalso. apply (proj2 (H b)). now left.
  - exfalso. apply (proj1 (H a)). now left.
  - apply StronglySorted_inv in S1, S2.
    destruct S1 as (S1 & F1), S2 as (S2 & F2).
    rewrite Forall_forall in F1, F2.
    inversion N1 as [|? ? Na N1']; inversion N2 as [|? ? Nb N2']; subst.
    assert (E : a = b).
    { destruct (proj1 (H a) (or_introl eq_refl)) as [E|Ia]; [auto|].
      destruct (proj2 (H b) (or_introl eq_refl)) as [E|Ib]; [auto|].
      apply leb_antisym; [now apply F1|now apply F2]. }
    subst b. f_equal. apply IH; auto.
    intros x. split; intros I.
    + destruct (proj1 (H x) (or_intror I)) as [->|]; [contradiction|auto].
    + destruct (proj2 (H x) (or_intror I)) as [->|]; [contradiction|auto].
Qed.

End OrderFacts.

(** X15: the list of pairs depends only on which tag names occur: two tag
    lists with the same names, in whatever order and however often, give
    the same pairs in the same order. *)
Theorem pairs_depend_on_tag_set_only tags1 tags2 :
  (forall tg, In tg (map t_tag tags1) <-> In tg (map t_tag tags2)) ->
  findSubstringTags tags1 = findSubstringTags tags2.
Proof.
  intros H. unfold findSubstringTags. f_equal.
  apply OrderFacts.sorted_unique.
  - apply OrderFacts.sort_strongly_sorted.
  - apply OrderFacts.sort_strongly_sorted.
  - apply JSFacts.sort_NoDup, JSFacts.setOf_NoDup.
  - apply JSFacts.sort_NoDup, JSFacts.setOf_NoDup.
  - intros x. now rewrite !JSFacts.sort_In, !JSFacts.setOf_In.
Qed.

Lemma pairs_depend_on_tag_set_only_witness :
  findSubstringTags (tagsOf ["foo_bar"; "baz"; "foo"; "baz"]%string)
  = findSubstringTags (tagsOf ["foo"; "foo_bar"; "baz"]%string).
Proof.
  apply pairs_depend_on_tag_set_only.
  intros tg. vm_compute. tauto.
Defined.

(** * Properties of the directory traversal *)

Lemma fsnode_nested_ind (P : fsnode -> Prop) :
  P File -> P Dangling -> P (Dir None) ->
  (forall files, Forall (fun e => P (snd e)) files -> P (Dir (Some files))) ->
  forall n, P n.
Proof.
  intros HF HD HU HDir. fix rec 1.
  intros [| |[files|]]; [exact HF|exact HD| |exact HU].
  apply HDir. induction files as [|[name c] r IH]; constructor.
  - apply rec.
  - exact IH.
Qed.

Section TraversalFacts.

Variable join : path -> string -> path.

(** X16: the traversal only appends to the array it is given: started with
    [acc] it returns [acc] followed by what it returns when started with
    the empty array, and it throws in the one case exactly when it throws in
    the other. *)
Theorem traversal_appends_to_array n :
  forall dirPath acc,
    getAllFiles join dirPath n acc
    = option_map (app acc) (getAllFiles join dirPath n []).
Proof.
  induction n as [| | |files IH] using fsnode_nested_ind;
    intros dirPath acc; try reflexivity.
  simpl.
  assert (G : forall acc base,
             forEachFile join (getAllFiles join) dirPath files (acc ++ base)
             = option_map (app acc)
                 (forEachFile join (getAllFiles join) dirPath files base)).
  { clear acc. induction files as [|[name c] r IHr]; intros acc base.
    - reflexivity.
    - inversion IH as [|? ? Hc Hr]; subst. simpl in Hc. simpl.
      destruct (excluded name); [now apply IHr|].
      destruct c as [| |d].
      + rewrite <- app_assoc. now apply IHr.
      + reflexivity.
      + rewrite (Hc (join dirPath name) (acc ++ base)).
        rewrite (Hc (join dirPath name) base).
        destruct (getAllFiles join (join dirPath name) (Dir d) [])
          as [l|]; simpl; [|reflexivity].
        rewrite <- app_assoc. now apply IHr. }
  rewrite <- (G acc []). now rewrite app_nil_r.
Qed.

Lemma getAllFiles_prune n :
  forall dirPath acc,
    getAllFiles join dirPath (prune n) acc = getAllFiles join dirPath n acc.
Proof.
  induction n as [| | |files IH] using fsnode_nested_ind;
    intros dirPath acc; try reflexivity.
  simpl. revert acc.
  induction files as [|[name c] r IHr]; intros acc; [reflexivity|].
  inversion IH as [|? ? Hc Hr]; subst. simpl in Hc. simpl.
  destruct (excluded name) eqn:X; [now apply IHr|].
  simpl. rewrite X.
  destruct c as [| |[l|]].
  - now apply IHr.
  - reflexivity.
  - change (prune (Dir (Some l))) with (Dir (Some
             ((fix each (l : list (string * fsnode)) :=
                 match l with
                 | [] => []
                 | (name, child) :: rest =>
                     if excluded name then each rest
                     else (name, prune child) :: each rest
                 end) l))) at 1.
    cbv beta iota.
    change (Dir (Some
             ((fix each (l : list (string * fsnode)) :=
                 match l with
                 | [] => []
                 | (name, child) :: rest =>
                     if excluded name then each rest
                     else (name, prune child) :: each rest
                 end) l))) with (prune (Dir (Some l))).
    rewrite Hc.
    destruct (getAllFiles join (join dirPath name) (Dir (Some l)) acc);
      [now apply IHr|reflexivity].
  - simpl. reflexivity.
Qed.

Lemma fatal_not_file : ~ fatal File.
Proof. inversion 1. Qed.

Lemma forEach_throws dirPath files :
  (forall name child p acc,
      In (name, child) files -> child <> File ->
      getAllFiles join p child acc = None -> fatal child) ->
  forall acc,
    forEachFile join (getAllFiles join) dirPath files acc = None ->
    exists name child,
      In (name, child) files /\ excluded name = false /\ fatal child.
Proof.
  induction files as [|[name c] r IHr]; intros Hc acc H; [discriminate|].
  assert (Later : forall a,
             forEachFile join (getAllFiles join) dirPath r a = None ->
             exists name0 child,
               In (name0, child) ((name, c) :: r)
               /\ excluded name0 = false /\ fatal child).
  { intros a Ha. destruct (IHr (fun n0 ch p a0 I => Hc n0 ch p a0 (or_intror I))
                             a Ha) as (n0 & ch & I & X & F).
    exists n0, ch. repeat split; auto. now right. }
  simpl in H. destruct (excluded name) eqn:X; [eauto|].
  destruct c as [| |d].
  - eauto.
  - exists name, Dangling. repeat split; auto; [now left|constructor].
  - destruct (getAllFiles join (join dirPath name) (Dir d) acc) eqn:G;
      [eauto|].
    exists name, (Dir d). repeat split; auto; [now left|].
    eapply Hc; eauto; [now left|discriminate].
Qed.

Lemma throws_fatal n :
  n <> File -> forall p acc, getAllFiles join p n acc = None -> fatal n.
Proof.
  induction n as [| | |files IH] using fsnode_nested_ind;
    intros N p acc H.
  - contradiction.
  - constructor.
  - constructor.
  - simpl in H. apply forEach_throws in H.
    + destruct H as (name & child & I & X & F).
      eapply fatal_inside; eauto.
    + intros name child p0 a I NF G. rewrite Forall_forall in IH.
      apply (IH (name, child) I NF p0 a G).
Qed.

Lemma fatal_throws n :
  fatal n -> forall p acc, getAllFiles join p n acc = None.
Proof.
  induction 1 as [| |files name child I X F IH]; intros p acc;
    try reflexivity.
  simpl. revert acc.
  induction files as [|[n0 c0] r IHr]; intros acc; [destruct I|].
  simpl. destruct I as [E|I].
  - injection E as -> ->. rewrite X.
    destruct child as [| |d]; [now apply fatal_not_file in F|reflexivity|].
    now rewrite IH.
  - destruct (excluded n0); [now apply IHr|].
    destruct c0 as [| |d]; [now apply IHr|reflexivity|].
    destruct (getAllFiles join (join p n0) (Dir d) acc);
      [now apply IHr|reflexivity].
Qed.

End TraversalFacts.

(** X17: nothing under one of the four skipped names is looked at, be it a
    file or a directory: two trees that are equal once those entries are
    left out give the same result, also when one of them holds an
    unreadable directory or a dangling entry under such a name. *)
Theorem skipped_names_are_never_entered join dirPath n n' acc :
  prune n = prune n' ->
  getAllFiles join dirPath n acc = getAllFiles join dirPath n' acc.
Proof.
  intros H.
  rewrite <- (getAllFiles_prune join n), <- (getAllFiles_prune join n').
  now rewrite H.
Qed.

Lemma skipped_names_are_never_entered_witness :
  let join := fun (d : path) (f : string) => (d ++ "/" ++ f)%string in
  let src := Dir (Some [("Main.kt"%string, File)]) in
  getAllFiles join "."
    (Dir (Some [("build"%string, File); ("src"%string, src);
                (".git"%string, Dir None);
                ("node_modules"%string,
                 Dir (Some [("x"%string, Dangling)]))])) []
  = getAllFiles join "." (Dir (Some [("src"%string, src)])) [].
Proof.
  intros join src. apply skipped_names_are_never_entered. reflexivity.
Defined.

(** X18: the traversal of a directory throws exactly when, under names that
    are not skipped, it reaches a directory that cannot be listed or an
    entry that cannot be examined; nothing catches this, whereas a file that
    cannot be read only yields no tags. *)
Theorem traversal_throws_iff_fatal join dirPath d acc :
  getAllFiles join dirPath (Dir d) acc = None <-> fatal (Dir d).
Proof.
  split.
  - apply throws_fatal. discriminate.
  - intros F. now apply fatal_throws.
Qed.

(** * What the errors of a report point at *)

(** Each error pushed while the events are processed stems from one End
    event and the stack it met. *)
Lemma error_origin events e :
  In e (errors (processEvents initial events)) ->
  exists pre ev post,
    events = pre ++ ev :: post /\ type ev = END
    /\ ((stack (processEvents initial pre) = []
         /\ e = UNMATCHED_END (tag ev) (line ev))
        \/ (exists t,
               top (stack (processEvents initial pre)) = Some t
               /\ tag t <> tag ev
               /\ e = MISMATCHED_END (tag t) (tag ev) (line t) (line ev))).
Proof.
  induction events as [|ev events IH] using rev_ind; [intros []|].
  rewrite processEvents_app. simpl.
  set (st := processEvents initial events) in *.
  assert (Hold : In e (errors st) ->
                 exists pre ev0 post,
                   events ++ [ev] = pre ++ ev0 :: post /\ type ev0 = END
                   /\ ((stack (processEvents initial pre) = []
                        /\ e = UNMATCHED_END (tag ev0) (line ev0))
                       \/ (exists t,
                              top (stack (processEvents initial pre)) = Some t
                              /\ tag t <> tag ev0
                              /\ e = MISMATCHED_END (tag t) (tag ev0)
                                       (line t) (line ev0)))).
  { intros H. destruct (IH H) as (pre & ev0 & post & -> & K & C).
    exists pre, ev0, (post ++ [ev]). now rewrite <- app_assoc. }
  destruct (onEvent_cases st ev)
    as [(K & S & ->)|[(K & fs & t & S & ->)|[(K & S & ->)
       |[(K & fs & t & S & T & ->)|(K & fs & t & S & T & ->)]]]];
    simpl; auto; intros H; apply in_app_or in H;
    destruct H as [H|[<-|[]]]; auto;
    exists events, ev, []; repeat split; auto.
  right. exists t. fold st. rewrite S, top_snoc. now repeat split.
Qed.

(** X19: every error of a file's report points at markers of the file.  A
    MISMATCHED_END names a Start event and a later End event with different
    tags, its [startLine] not after its [endLine]; an UNMATCHED_END names an
    End event; an UNCLOSED_START names a Start event. *)
Theorem errors_point_at_markers fs f r e :
  findNestedTags fs f = Some r -> In e (r_errors r) ->
  let events := parseTagEvents fs f in
  match e with
  | MISMATCHED_END expected got startLine endLine =>
      expected <> got /\ startLine <= endLine
      /\ exists pre post,
          events = pre ++ mkEvent END got endLine f :: post
          /\ In (mkEvent START expected startLine f) pre
  | UNMATCHED_END tg ln => In (mkEvent END tg ln f) events
  | UNCLOSED_START tg ln => In (mkEvent START tg ln f) events
  end.
Proof.
  unfold findNestedTags, analyze.
  set (events := parseTagEvents fs f).
  destruct (length events =? 0); [discriminate|].
  intros H I. injection H as <-. simpl in I. cbv zeta.
  assert (Sorted : StronglySorted le (map line events)).
  { unfold events, parseTagEvents. destruct (fs f); [|constructor].
    apply eventsFrom_sorted. }
  assert (File : forall x, In x events -> file x = f).
  { unfold events, parseTagEvents. destruct (fs f); [|intros ? []].
    intros x. apply tokenize_file. }
  assert (Eta : forall x k, In x events -> type x = k ->
                            x = mkEvent k (tag x) (line x) f).
  { intros x k Ix <-. rewrite <- (File x Ix). now destruct x. }
  apply in_app_or in I. destruct I as [I|I].
  - destruct (error_origin events e I)
      as (pre & ev & post & E & K & [(S & ->)|(t & T & D & ->)]).
    + rewrite <- (Eta ev END); auto; rewrite E; apply in_or_app;
        right; now left.
    + apply top_In in T.
      destruct (@stack_invariant pre initial [])
        as (Sub & St); [constructor|constructor|]. simpl in Sub.
      assert (It : In t pre) by (eapply subseq_In; eauto).
      assert (Kt : type t = START)
        by (rewrite Forall_forall in St; now apply St).
      split; [assumption|]. split.
      * rewrite E, map_app in Sorted. simpl in Sorted.
        apply (sorted_before _ _ _ (line t) Sorted). now apply in_map.
      * exists pre, post. split.
        -- rewrite <- (Eta ev END); auto.
           rewrite E. apply in_or_app. right. now left.
        -- rewrite <- (Eta t START); auto.
           rewrite E. apply in_or_app. now left.
  - unfold unclosed in I. apply in_map_iff in I.
    destruct I as (u & <- & I).
    destruct (@stack_invariant events initial [])
      as (Sub & St); [constructor|constructor|]. simpl in Sub.
    assert (Iu : In u events) by (eapply subseq_In; eauto).
    rewrite Forall_forall in St.
    rewrite <- (Eta u START); auto.
Qed.

Lemma errors_point_at_markers_witness :
  let fs := oneFile (text ["[START a]"; "x"; "[END b]"]%string) in
  lit "a" <> lit "b" /\ 1 <= 3.
Proof.
  intros fs.
  destruct (@errors_point_at_markers fs "f"%string
              (mkReport "f" [] [MISMATCHED_END (lit "a") (lit "b") 1 3] 2)
              (MISMATCHED_END (lit "a") (lit "b") 1 3)
              eq_refl (or_introl eq_refl))
    as (D & L & _).
  split; [exact D | exact L].
Defined.
